(** * StockWatchList: the in-memory request-rate limiter

    A shallow embedding of [middleware/rateLimiter.js]: the [RateLimiter]
    class (its [Map] of per-identifier window entries, [isAllowed] and
    [cleanup]), the two module-level instances and the three middlewares
    built on them.

    Conventions.
    - [Date.now()] is an explicit [now : Z] argument (milliseconds).
    - [this.requests] is a [gmap string entry] threaded through the calls;
      the heap of [Map] objects owned by the instances is modelled in
      [Module Middleware].
    - [windowMs] and [maxRequests] are integers, as every caller in the
      repository passes them.

    [Module Validation] embeds [validateStockSymbol] of
    [utils/validators.js] and the middlewares [validateStockSymbolParam],
    [validateQueryParams] and [validateStockData] of
    [middleware/validation.js], over strings as lists of UTF-16 code
    units. *)

From Stdlib Require Import ZArith Lia Ascii.
From stdpp Require Import gmap strings list fin_maps.

Local Open Scope Z_scope.

(** ** The [RateLimiter] class *)

Module RateLimiter.

(** The object stored under an identifier:
    [{ count, resetTime, firstRequest }]. *)
Record entry : Type := Entry {
  count : Z;
  resetTime : Z;
  firstRequest : Z
}.

(** The two configuration fields set by the constructor. *)
Record config : Type := Config {
  windowMs : Z;
  maxRequests : Z
}.

(** What [isAllowed] returns: either [{ allowed: true, remaining }] or
    [{ allowed: false, remaining, retryAfter, resetTime }]. *)
Inductive result : Type :=
  | Allow (remaining : Z)
  | Deny (remaining : Z) (retryAfter : Z) (resetAt : Z).

Definition allowed (r : result) : bool :=
  match r with
  | Allow _ => true
  | Deny _ _ _ => false
  end.

Definition remaining (r : result) : Z :=
  match r with
  | Allow n => n
  | Deny n _ _ => n
  end.

Definition retryAfter (r : result) : option Z :=
  match r with
  | Allow _ => None
  | Deny _ s _ => Some s
  end.

Definition resetAt (r : result) : option Z :=
  match r with
  | Allow _ => None
  | Deny _ _ t => Some t
  end.

(** [Math.ceil(x / d)] on integers, for a positive divisor. *)
Definition ceil_div (x d : Z) : Z := - ((- x) / d).

(** The entry written by both the first-request and the reset branch. *)
Definition fresh_entry (now : Z) : entry :=
  {| count := 1; resetTime := now; firstRequest := now |}.

(** [data.count++] on the object held by the map. *)
Definition bump (data : entry) : entry :=
  {| count := count data + 1;
     resetTime := resetTime data;
     firstRequest := firstRequest data |}.

(** [isAllowed(identifier)], with the clock reading and the map made
    explicit.  The branches follow the source in order. *)
Definition isAllowed (L : config) (identifier : string) (now : Z)
    (requests : gmap string entry) : gmap string entry * result :=
  match requests !! identifier with
  | None =>
      (<[identifier := fresh_entry now]> requests,
       Allow (maxRequests L - 1))
  | Some data =>
      if bool_decide (now - firstRequest data > windowMs L) then
        (<[identifier := fresh_entry now]> requests,
         Allow (maxRequests L - 1))
      else if bool_decide (count data >= maxRequests L) then
        (requests,
         Deny 0
              (ceil_div (windowMs L - (now - firstRequest data)) 1000)
              (firstRequest data + windowMs L))
      else
        let data' := bump data in
        (<[identifier := data']> requests,
         Allow (maxRequests L - count data'))
  end.

(** One iteration of the loop in [cleanup]. *)
Definition sweep_one (L : config) (now : Z) (key : string) (data : entry)
    (requests : gmap string entry) : gmap string entry :=
  if bool_decide (now - resetTime data > windowMs L)
  then delete key requests
  else requests.

(** [cleanup()]: iterate over the entries of the map, deleting from that
    same map. *)
Definition cleanup (L : config) (now : Z) (requests : gmap string entry)
    : gmap string entry :=
  map_fold (sweep_one L now) requests requests.

(** *** Runs of a single limiter *)

(** What can happen to one limiter: a request for an identifier, or a firing
    of the interval timer. *)
Inductive event : Type :=
  | Request (identifier : string) (now : Z)
  | Sweep (now : Z).

Definition step (L : config) (requests : gmap string entry) (ev : event)
    : gmap string entry :=
  match ev with
  | Request identifier now => (isAllowed L identifier now requests).1
  | Sweep now => cleanup L now requests
  end.

Definition run (L : config) (evs : list event)
    (requests : gmap string entry) : gmap string entry :=
  foldl (step L) requests evs.

(** The maps a limiter can hold: the constructor's empty map, and whatever
    [isAllowed] and [cleanup] make of it. *)
Inductive reachable (L : config) : gmap string entry → Prop :=
  | reach_new : reachable L ∅
  | reach_isAllowed requests identifier now :
      reachable L requests →
      reachable L (isAllowed L identifier now requests).1
  | reach_cleanup requests now :
      reachable L requests →
      reachable L (cleanup L now requests).

(** Successive calls for one identifier at the given clock readings,
    collecting the results. *)
Fixpoint calls (L : config) (identifier : string) (times : list Z)
    (requests : gmap string entry) : gmap string entry * list result :=
  match times with
  | [] => (requests, [])
  | now :: times' =>
      let '(requests', r) := isAllowed L identifier now requests in
      let '(requests'', rs) := calls L identifier times' requests' in
      (requests'', r :: rs)
  end.

(** The results returned to one identifier in the course of a run in which
    other identifiers are served and the timer fires as well. *)
Fixpoint answers (L : config) (identifier : string) (evs : list event)
    (requests : gmap string entry) : list result :=
  match evs with
  | [] => []
  | Request other now :: evs' =>
      let '(requests', r) := isAllowed L other now requests in
      if bool_decide (other = identifier)
      then r :: answers L identifier evs' requests'
      else answers L identifier evs' requests'
  | Sweep now :: evs' =>
      answers L identifier evs' (cleanup L now requests)
  end.

(** An event that falls inside the window opened at [start], as far as the
    identifier is concerned: its own requests and the sweeps come no later
    than [start + windowMs]; other identifiers' requests come whenever. *)
Definition within (L : config) (identifier : string) (start : Z)
    (ev : event) : Prop :=
  match ev with
  | Request other now => other = identifier → now - start <= windowMs L
  | Sweep now => now - start <= windowMs L
  end.

(** The next request for the identifier starts a window: there is no entry,
    or the entry's window has expired. *)
Definition opens_window (L : config) (requests : gmap string entry)
    (identifier : string) (now : Z) : Prop :=
  match requests !! identifier with
  | None => True
  | Some data => now - firstRequest data > windowMs L
  end.

(** Every entry was written by [isAllowed]: its two timestamps agree. *)
Definition stamped (requests : gmap string entry) : Prop :=
  ∀ identifier data,
    requests !! identifier = Some data → resetTime data = firstRequest data.

(** The bound on the counters. *)
Definition bounded (L : config) (requests : gmap string entry) : Prop :=
  ∀ identifier data,
    requests !! identifier = Some data → 1 <= count data <= maxRequests L.

End RateLimiter.

(** ** The instances and the middlewares *)

Module Middleware.
Import RateLimiter.

(** A [RateLimiter] object: its configuration and a reference to the [Map]
    that [new Map()] allocated for it.  The maps live in a heap
    [gmap positive (gmap string entry)]. *)
Record limiter : Type := Limiter {
  settings : config;
  requests : positive
}.

(** [new RateLimiter(windowMs, maxRequests)]: allocates a new, empty map. *)
Definition new_RateLimiter (windowMs maxRequests : Z)
    (h : gmap positive (gmap string entry))
    : limiter * gmap positive (gmap string entry) :=
  let r := fresh (dom h) in
  ({| settings := Config windowMs maxRequests; requests := r |},
   <[r := ∅]> h).

(** [this.isAllowed(identifier)] on the heap. *)
Definition isAllowed_on (this : limiter) (identifier : string) (now : Z)
    (h : gmap positive (gmap string entry))
    : gmap positive (gmap string entry) * result :=
  let '(m, r) :=
    isAllowed (settings this) identifier now (h !!! requests this) in
  (<[requests this := m]> h, r).

(** [this.cleanup()] on the heap. *)
Definition cleanup_on (this : limiter) (now : Z)
    (h : gmap positive (gmap string entry))
    : gmap positive (gmap string entry) :=
  <[requests this := cleanup (settings this) now (h !!! requests this)]> h.

(** The two module-level instances, constructed in source order. *)
Definition boot
    : limiter * limiter * gmap positive (gmap string entry) :=
  let '(general, h1) := new_RateLimiter (15 * 60 * 1000) 100 ∅ in
  let '(strict, h2) := new_RateLimiter (60 * 1000) 10 h1 in
  (general, strict, h2).

Definition generalLimiter : limiter := boot.1.1.
Definition strictLimiter : limiter := boot.1.2.
Definition boot_heap : gmap positive (gmap string entry) := boot.2.

(** The parts of an Express request the middlewares read.  A field that is
    [undefined] (or whose parent object is) is [None]. *)
Record request : Type := Req {
  method : string;
  ip : option string;
  connection_remoteAddress : option string;
  socket_remoteAddress : option string;
  x_forwarded_for : option string
}.

(** What a middleware does to the response and how it calls [next]. *)
Inductive continuation : Type :=
  | Next
  | NextError (message : string) (statusCode : Z).

Record response : Type := Res {
  headers : list (string * Z);
  outcome : continuation
}.

(** [a || b] where [a] is a string or [undefined] and [b] a string: the
    empty string is falsy, like [undefined]. *)
Definition or_else (a : option string) (b : string) : string :=
  match a with
  | Some s => if bool_decide (s = EmptyString) then b else s
  | None => b
  end.

(** [s.split(',')[0]]. *)
Fixpoint before_comma (s : string) : string :=
  match s with
  | EmptyString => EmptyString
  | String c s' =>
      if Ascii.eqb c ","%char then EmptyString
      else String c (before_comma s')
  end.

(** The identifier chain written out in each of the three middlewares:
    [req.ip || req.connection?.remoteAddress || req.socket?.remoteAddress
     || req.headers['x-forwarded-for']?.split(',')[0] || 'unknown']. *)
Definition client_identifier (req : request) : string :=
  or_else (ip req)
    (or_else (connection_remoteAddress req)
      (or_else (socket_remoteAddress req)
        (or_else (before_comma <$> x_forwarded_for req)
          "unknown"%string))).

(** [rateLimiter]: the general middleware. *)
Definition rateLimiter (req : request) (now : Z)
    (h : gmap positive (gmap string entry))
    : gmap positive (gmap string entry) * response :=
  let identifier := client_identifier req in
  let '(h', result) := isAllowed_on generalLimiter identifier now h in
  let set3 :=
    [ ("X-RateLimit-Limit"%string, maxRequests (settings generalLimiter));
      ("X-RateLimit-Remaining"%string, remaining result);
      ("X-RateLimit-Window"%string,
       ceil_div (windowMs (settings generalLimiter)) 1000) ] in
  match result with
  | Deny _ retry _ =>
      (h', {| headers := set3 ++ [("Retry-After"%string, retry)];
              outcome :=
                NextError "Too many requests. Please try again later." 429 |})
  | Allow _ =>
      (h', {| headers := set3; outcome := Next |})
  end.

(** [strictRateLimiter]: the middleware for write operations. *)
Definition strictRateLimiter (req : request) (now : Z)
    (h : gmap positive (gmap string entry))
    : gmap positive (gmap string entry) * response :=
  if negb (bool_decide
             (method req ∈ ["POST"; "PUT"; "PATCH"; "DELETE"]%string))
  then
    (h, {| headers := []; outcome := Next |})
  else
    let identifier := client_identifier req in
    let '(h', result) := isAllowed_on strictLimiter identifier now h in
    let set3 :=
      [ ("X-RateLimit-Strict-Limit"%string,
         maxRequests (settings strictLimiter));
        ("X-RateLimit-Strict-Remaining"%string, remaining result);
        ("X-RateLimit-Strict-Window"%string,
         ceil_div (windowMs (settings strictLimiter)) 1000) ] in
    match result with
    | Deny _ retry _ =>
        (h', {| headers := set3 ++ [("Retry-After"%string, retry)];
                outcome :=
                  NextError "Too many write requests. Please slow down."
                            429 |})
    | Allow _ =>
        (h', {| headers := set3; outcome := Next |})
    end.

(** The closure returned by [createRateLimiter], over the instance it
    captured. *)
Definition custom_middleware (limiter0 : limiter) (windowMs maxRequests : Z)
    (message : option string) (req : request) (now : Z)
    (h : gmap positive (gmap string entry))
    : gmap positive (gmap string entry) * response :=
  let identifier := client_identifier req in
  let '(h', result) := isAllowed_on limiter0 identifier now h in
  let set3 :=
    [ ("X-RateLimit-Limit"%string, maxRequests);
      ("X-RateLimit-Remaining"%string, remaining result);
      ("X-RateLimit-Window"%string, ceil_div windowMs 1000) ] in
  match result with
  | Deny _ retry _ =>
      (h', {| headers := set3 ++ [("Retry-After"%string, retry)];
              outcome :=
                NextError (or_else message "Rate limit exceeded") 429 |})
  | Allow _ =>
      (h', {| headers := set3; outcome := Next |})
  end.

(** [createRateLimiter(windowMs, maxRequests, message)]: a new instance and
    the middleware closed over it. *)
Definition createRateLimiter (windowMs maxRequests : Z)
    (message : option string) (h : gmap positive (gmap string entry))
    : (request → Z → gmap positive (gmap string entry)
       → gmap positive (gmap string entry) * response)
      * gmap positive (gmap string entry) :=
  let '(limiter0, h') := new_RateLimiter windowMs maxRequests h in
  (custom_middleware limiter0 windowMs maxRequests message, h').

(** A trace over several instances: which instance, and what happens to
    it. *)
Definition step_on (h : gmap positive (gmap string entry))
    (act : limiter * event) : gmap positive (gmap string entry) :=
  match act.2 with
  | Request identifier now => (isAllowed_on act.1 identifier now h).1
  | Sweep now => cleanup_on act.1 now h
  end.

Definition run_on (acts : list (limiter * event))
    (h : gmap positive (gmap string entry))
    : gmap positive (gmap string entry) :=
  foldl step_on h acts.

(** The states of the module: instances are made by the constructor, one
    after the other, and used in between. *)
Inductive built
    : list limiter → gmap positive (gmap string entry) → Prop :=
  | built_none : built [] ∅
  | built_new made h windowMs maxRequests :
      built made h →
      built ((new_RateLimiter windowMs maxRequests h).1 :: made)
            (new_RateLimiter windowMs maxRequests h).2
  | built_use made h act :
      built made h →
      act.1 ∈ made →
      built made (step_on h act).

End Middleware.

(** ** Traffic: orderings and selections of events, runs of a middleware *)

Module Traffic.
Import RateLimiter Middleware.

(** The clock reading an event carries. *)
Definition time_of (ev : event) : Z :=
  match ev with
  | Request _ now => now
  | Sweep now => now
  end.

(** The clock never runs backwards along the events, starting from [T]. *)
Fixpoint ordered (T : Z) (evs : list event) : Prop :=
  match evs with
  | [] => True
  | ev :: evs' => T <= time_of ev ∧ ordered (time_of ev) evs'
  end.

(** The events that concern an identifier: its own requests, and the
    sweeps. *)
Definition concerns (identifier : string) (ev : event) : bool :=
  match ev with
  | Request other _ => bool_decide (other = identifier)
  | Sweep _ => true
  end.

Definition is_request (ev : event) : bool :=
  match ev with
  | Request _ _ => true
  | Sweep _ => false
  end.

(** Requests going through one middleware, one after the other, each with
    the clock reading at which its limiter is called. *)
Fixpoint serve
    (mw : request → Z → gmap positive (gmap string entry)
          → gmap positive (gmap string entry) * response)
    (reqs : list (request * Z)) (h : gmap positive (gmap string entry))
    : gmap positive (gmap string entry) * list response :=
  match reqs with
  | [] => (h, [])
  | (req, now) :: reqs' =>
      let '(h', res) := mw req now h in
      let '(h'', ress) := serve mw reqs' h' in
      (h'', res :: ress)
  end.

(** A map on which sweeps ran, next to the map as it would be without them:
    they agree on an identifier, or the swept one has lost an entry that had
    expired by time [T]. *)
Definition shadows (L : config) (T : Z) (swept kept : gmap string entry)
    : Prop :=
  ∀ identifier,
    swept !! identifier = kept !! identifier
    ∨ (swept !! identifier = None
       ∧ ∃ data, kept !! identifier = Some data
                 ∧ T - firstRequest data > windowMs L).

End Traffic.

(** ** The validators ([utils/validators.js]) and the validation middlewares
    ([middleware/validation.js])

    A JavaScript string is the list of its UTF-16 code units.  [toUpperCase]
    is a parameter: the validators are stated for any function in its
    place. *)

Module Validation.
Import Middleware.

(** The code units of a string written in ASCII. *)
Definition units (s : string) : list N :=
  map Ascii.N_of_ascii (Stdlib.Strings.String.list_ascii_of_string s).

(** An argument as the validators look at it: [undefined], a string, or
    any other value, of which only its truthiness matters. *)
Inductive value : Type :=
  | Undefined
  | Str (s : list N)
  | Other (truthy : bool).

(** [!v]. *)
Definition falsy (v : value) : bool :=
  match v with
  | Undefined => true
  | Str s => bool_decide (s = [])
  | Other truthy => negb truthy
  end.

(** The code units [trim] and [parseInt] skip: the white space and line
    terminators of ECMAScript (TAB, LF, VT, FF, CR, SP, NBSP, U+1680,
    U+2000..U+200A, U+2028, U+2029, U+202F, U+205F, U+3000, U+FEFF). *)
Definition is_white (c : N) : bool :=
  bool_decide (c ∈ [9; 10; 11; 12; 13; 32; 160; 5760; 8232; 8233; 8239;
                    8287; 12288; 65279]%N)
  || ((8192 <=? c)%N && (c <=? 8202)%N).

Fixpoint trimStart (s : list N) : list N :=
  match s with
  | [] => []
  | c :: s' => if is_white c then trimStart s' else s
  end.

Definition trimEnd (s : list N) : list N := rev (trimStart (rev s)).

(** [s.trim()]. *)
Definition trim (s : list N) : list N := trimEnd (trimStart s).

(** The class [[A-Z]]. *)
Definition is_capital (c : N) : bool := (65 <=? c)%N && (c <=? 90)%N.

(** [/^[A-Z]{1,5}$/.test(s)]. *)
Definition capitals_1_5 (s : list N) : bool :=
  forallb is_capital s
  && (1 <=? length s)%nat && (length s <=? 5)%nat.

(** What a validator returns: [{ isValid: false, message }] or
    [{ isValid: true, symbol }]. *)
Inductive validation : Type :=
  | Invalid (message : string)
  | Valid (symbol : list N).

Definition forbiddenSymbols : list (list N) :=
  [units "NULL"; units "ADMIN"; units "TEST"; units "DEBUG"].

Section Validators.
Variable toUpperCase : list N → list N.

(** [validateStockSymbol(symbol)]. *)
Definition validateStockSymbol (symbol : value) : validation :=
  if falsy symbol then Invalid "Stock symbol is required"
  else
    match symbol with
    | Str s =>
        let trimmedSymbol := toUpperCase (trim s) in
        if (length trimmedSymbol <? 1)%nat || (5 <? length trimmedSymbol)%nat
        then Invalid "Stock symbol must be 1-5 characters long"
        else if negb (capitals_1_5 trimmedSymbol)
        then Invalid "Stock symbol must contain only uppercase letters (A-Z)"
        else if bool_decide (trimmedSymbol ∈ forbiddenSymbols)
        then Invalid "This stock symbol is not allowed"
        else Valid trimmedSymbol
    | _ => Invalid "Stock symbol must be a string"
    end.

(** [validateStockSymbolParam], as a function of [req.params.symbol]. *)
Definition validateStockSymbolParam (symbol : value) : continuation :=
  if falsy symbol
  then NextError "Stock symbol parameter is required" 400
  else
    match validateStockSymbol symbol with
    | Invalid message => NextError message 400
    | Valid _ => Next
    end.

End Validators.

(** The value of a code unit as a digit in the given radix (10 or 16). *)
Definition digit (radix : Z) (c : N) : option Z :=
  let v :=
    if (48 <=? c)%N && (c <=? 57)%N then Some (Z.of_N c - 48)
    else if (97 <=? c)%N && (c <=? 122)%N then Some (Z.of_N c - 87)
    else if (65 <=? c)%N && (c <=? 90)%N then Some (Z.of_N c - 55)
    else None in
  match v with
  | Some d => if d <? radix then Some d else None
  | None => None
  end.

(** The value of the longest prefix of digits; [None] when it is empty. *)
Fixpoint leading_digits (radix : Z) (s : list N) (acc : Z) (seen : bool)
    : option Z :=
  match s with
  | [] => if seen then Some acc else None
  | c :: s' =>
      match digit radix c with
      | Some d => leading_digits radix s' (acc * radix + d) true
      | None => if seen then Some acc else None
      end
  end.

(** [parseInt(s)] for a string [s], no radix given; [None] is [NaN].  The
    result is the mathematical integer: the tests made on it below
    ([< 1], [> 1000], [> 100]) come out the same on its nearest double. *)
Definition parseInt (s : list N) : option Z :=
  let s1 := trimStart s in
  let '(sign, s2) :=
    match s1 with
    | 45%N :: rest => (-1, rest)
    | 43%N :: rest => (1, rest)
    | _ => (1, s1)
    end in
  let '(radix, s3) :=
    match s2 with
    | 48%N :: 120%N :: rest => (16, rest)
    | 48%N :: 88%N :: rest => (16, rest)
    | _ => (10, s2)
    end in
  (λ n, sign * n) <$> leading_digits radix s3 0 false.

Definition allowedSortFields : list (list N) :=
  [units "symbol"; units "name"; units "addedAt"; units "lastUpdated"].

(** [sort.replace(/^-/, '')]. *)
Definition drop_leading_minus (sort : list N) : list N :=
  match sort with
  | 45%N :: rest => rest
  | _ => sort
  end.

(** [validateQueryParams], as a function of [req.query.page],
    [req.query.limit] and [req.query.sort], each [undefined] or a
    string. *)
Definition validateQueryParams (page limit sort : option (list N))
    : continuation :=
  let page_error :=
    match page with
    | Some page =>
        match parseInt page with
        | None => Some (NextError "Page must be a positive integer" 400)
        | Some pageNum =>
            if pageNum <? 1
            then Some (NextError "Page must be a positive integer" 400)
            else if 1000 <? pageNum
            then Some (NextError "Page number too large" 400)
            else None
        end
    | None => None
    end in
  let limit_error :=
    match limit with
    | Some limit =>
        match parseInt limit with
        | None => Some (NextError "Limit must be between 1 and 100" 400)
        | Some limitNum =>
            if (limitNum <? 1) || (100 <? limitNum)
            then Some (NextError "Limit must be between 1 and 100" 400)
            else None
        end
    | None => None
    end in
  let sort_error :=
    match sort with
    | Some sort =>
        let sortField := drop_leading_minus sort in
        if negb (bool_decide (sortField ∈ allowedSortFields))
        then Some (NextError "Invalid sort field" 400)
        else None
    | None => None
    end in
  match page_error with
  | Some e => e
  | None =>
      match limit_error with
      | Some e => e
      | None =>
          match sort_error with
          | Some e => e
          | None => Next
          end
      end
  end.

(** Matching one code unit against a pattern character under the [i]
    flag (no [u] flag): an ASCII letter matches in either case, any other
    pattern character matches itself only.  Pattern characters are given
    in lower case. *)
Definition fold_case (c : N) : N :=
  if (65 <=? c)%N && (c <=? 90)%N then (c + 32)%N else c.

(** The pattern, as a literal, matches at the start of [s]: what follows
    the match. *)
Fixpoint literal_ci (pattern s : list N) : option (list N) :=
  match pattern with
  | [] => Some s
  | p :: pattern' =>
      match s with
      | [] => None
      | c :: s' =>
          if bool_decide (fold_case c = p) then literal_ci pattern' s'
          else None
      end
  end.

(** The class [\w]. *)
Definition is_word (c : N) : bool :=
  ((48 <=? c)%N && (c <=? 57)%N)
  || ((65 <=? c)%N && (c <=? 90)%N)
  || ((97 <=? c)%N && (c <=? 122)%N)
  || bool_decide (c = 95%N).

Fixpoint skip (class : N → bool) (s : list N) : list N :=
  match s with
  | [] => []
  | c :: s' => if class c then skip class s' else s
  end.

(** [regex.test(s)] for a pattern without anchors: it matches at the start
    of some suffix of [s]. *)
Fixpoint somewhere (at_start : list N → bool) (s : list N) : bool :=
  at_start s
  || match s with
     | [] => false
     | _ :: s' => somewhere at_start s'
     end.

(** [/<script/i], [/javascript:/i] and [/eval\(/i] at the start of [s]. *)
Definition script_tag (s : list N) : bool :=
  bool_decide (is_Some (literal_ci (units "<script") s)).
Definition javascript_url (s : list N) : bool :=
  bool_decide (is_Some (literal_ci (units "javascript:") s)).
Definition eval_call (s : list N) : bool :=
  bool_decide (is_Some (literal_ci (units "eval(") s)).

(** [/on\w+\s*=/i] at the start of [s].  The classes [\w], [\s] and [=]
    are disjoint, so the only way to match is to take all the word
    characters, then all the white space. *)
Definition event_handler (s : list N) : bool :=
  match literal_ci (units "on") s with
  | Some (c :: rest) =>
      is_word c
      && match skip is_white (skip is_word rest) with
         | 61%N :: _ => true
         | _ => false
         end
  | _ => false
  end.

(** [/function\s*\(/i] at the start of [s]. *)
Definition function_head (s : list N) : bool :=
  match literal_ci (units "function") s with
  | Some rest =>
      match skip is_white rest with
      | 40%N :: _ => true
      | _ => false
      end
  | None => false
  end.

(** [maliciousPatterns.some(pattern => pattern.test(name))]. *)
Definition maliciousPatterns (name : list N) : bool :=
  somewhere script_tag name
  || somewhere javascript_url name
  || somewhere event_handler name
  || somewhere eval_call name
  || somewhere function_head name.

(** [validateStockData], as a function of [req.body.name] ([req.body] being
    an object; [symbol] is read from it and not used). *)
Definition validateStockData (name : value) : continuation :=
  match name with
  | Undefined => Next
  | Other _ => NextError "Stock name must be a string" 400
  | Str name =>
      if (100 <? length name)%nat
      then NextError "Stock name must not exceed 100 characters" 400
      else if maliciousPatterns name
      then NextError "Invalid characters in stock name" 400
      else Next
  end.

(** A stand-in for [toUpperCase] in examples: what it does on strings
    written in ASCII. *)
Definition ascii_upper (s : list N) : list N :=
  map (λ c, if (97 <=? c)%N && (c <=? 122)%N then (c - 32)%N else c) s.

End Validation.

Import RateLimiter.

(** ** Basic facts about [isAllowed] and [cleanup] *)

Lemma ceil_div_nonneg x d : 0 < d → 0 <= x → 0 <= ceil_div x d.
Proof.
  intros Hd Hx. unfold ceil_div.
  assert ((- x) / d <= 0); [|lia].
  apply Z.div_le_upper_bound; lia.
Qed.

Lemma ceil_div_pos x d : 0 < d → (0 < ceil_div x d ↔ 0 < x).
Proof.
  intros Hd. unfold ceil_div. split; intros H.
  - destruct (decide (0 < x)) as [|Hn]; [done|].
    assert (0 <= (- x) / d); [|lia].
    apply Z.div_pos; lia.
  - assert ((- x) / d < 0); [|lia].
    apply Z.div_lt_upper_bound; lia.
Qed.

(** [ceil_div x d] is the least integer whose multiple of [d] reaches
    [x]. *)
Lemma ceil_div_spec x d :
  0 < d → (ceil_div x d - 1) * d < x <= ceil_div x d * d.
Proof.
  intros Hd. unfold ceil_div.
  pose proof (Z.div_mod (- x) d ltac:(lia)) as Hdm.
  pose proof (Z.mod_pos_bound (- x) d Hd) as Hm.
  nia.
Qed.

Lemma isAllowed_absent L identifier now requests :
  requests !! identifier = None →
  isAllowed L identifier now requests
  = (<[identifier := fresh_entry now]> requests, Allow (maxRequests L - 1)).
Proof. intros H. unfold isAllowed. by rewrite H. Qed.

Lemma isAllowed_expired L identifier now requests data :
  requests !! identifier = Some data →
  now - firstRequest data > windowMs L →
  isAllowed L identifier now requests
  = (<[identifier := fresh_entry now]> requests, Allow (maxRequests L - 1)).
Proof.
  intros H Hexp. unfold isAllowed. rewrite H.
  by rewrite bool_decide_eq_true_2.
Qed.

Lemma isAllowed_denied L identifier now requests data :
  requests !! identifier = Some data →
  now - firstRequest data <= windowMs L →
  count data >= maxRequests L →
  isAllowed L identifier now requests
  = (requests,
     Deny 0 (ceil_div (windowMs L - (now - firstRequest data)) 1000)
            (firstRequest data + windowMs L)).
Proof.
  intros H Hlive Hfull. unfold isAllowed. rewrite H.
  rewrite bool_decide_eq_false_2 by lia.
  by rewrite bool_decide_eq_true_2.
Qed.

Lemma isAllowed_counted L identifier now requests data :
  requests !! identifier = Some data →
  now - firstRequest data <= windowMs L →
  count data < maxRequests L →
  isAllowed L identifier now requests
  = (<[identifier := bump data]> requests,
     Allow (maxRequests L - (count data + 1))).
Proof.
  intros H Hlive Hroom. unfold isAllowed. rewrite H.
  rewrite bool_decide_eq_false_2 by lia.
  by rewrite bool_decide_eq_false_2 by lia.
Qed.

Lemma isAllowed_opens L identifier now requests :
  opens_window L requests identifier now →
  isAllowed L identifier now requests
  = (<[identifier := fresh_entry now]> requests, Allow (maxRequests L - 1)).
Proof.
  unfold opens_window. destruct (requests !! identifier) as [data|] eqn:H.
  - intros Hexp. by eapply isAllowed_expired.
  - intros _. by apply isAllowed_absent.
Qed.

(** A request touches no identifier but its own. *)
Lemma isAllowed_other L identifier now requests other :
  identifier ≠ other →
  (isAllowed L identifier now requests).1 !! other = requests !! other.
Proof.
  intros Hne. unfold isAllowed.
  destruct (requests !! identifier) as [data|]; simpl;
    repeat case_bool_decide; simpl;
    by rewrite ?lookup_insert_ne.
Qed.

(** The sweep, entry by entry. *)
Lemma cleanup_lookup L now requests identifier :
  cleanup L now requests !! identifier
  = match requests !! identifier with
    | Some data =>
        if bool_decide (now - resetTime data > windowMs L)
        then None else Some data
    | None => None
    end.
Proof.
  unfold cleanup.
  enough (∀ acc m,
    map_fold (sweep_one L now) acc m !! identifier
    = match m !! identifier with
      | Some data =>
          if bool_decide (now - resetTime data > windowMs L)
          then None else acc !! identifier
      | None => acc !! identifier
      end) as Hgen.
  { rewrite Hgen. destruct (requests !! identifier) eqn:E; by rewrite ?E. }
  intros acc m.
  apply (map_fold_weak_ind (λ r m,
    r !! identifier
    = match m !! identifier with
      | Some data =>
          if bool_decide (now - resetTime data > windowMs L)
          then None else acc !! identifier
      | None => acc !! identifier
      end)); clear m.
  - by rewrite lookup_empty.
  - intros key data m r Hfresh IH. unfold sweep_one.
    destruct (decide (key = identifier)) as [->|Hne].
    + rewrite lookup_insert_eq. rewrite Hfresh in IH.
      case_bool_decide; [by rewrite lookup_delete_eq|done].
    + rewrite lookup_insert_ne by done.
      case_bool_decide; [by rewrite lookup_delete_ne|done].
Qed.


(** ** Invariants of the map *)

Section Invariants.
Variable L : config.

Lemma stamped_empty : stamped ∅.
Proof. intros identifier data H. by rewrite lookup_empty in H. Qed.

Lemma stamped_isAllowed identifier now requests :
  stamped requests → stamped (isAllowed L identifier now requests).1.
Proof.
  intros Hs other data. unfold isAllowed.
  destruct (requests !! identifier) as [old|] eqn:Hold; simpl;
    repeat case_bool_decide; simpl;
    destruct (decide (identifier = other)) as [->|Hne];
    rewrite ?lookup_insert_eq, ?lookup_insert_ne by done;
    try (intros [= <-]; simpl; eauto; done);
    eauto.
Qed.

Lemma stamped_cleanup now requests :
  stamped requests → stamped (cleanup L now requests).
Proof.
  intros Hs identifier data. rewrite cleanup_lookup.
  destruct (requests !! identifier) as [old|] eqn:Hold; [|done].
  case_bool_decide; [done|]. intros [= <-]. eauto.
Qed.

Lemma reachable_stamped requests : reachable L requests → stamped requests.
Proof.
  induction 1; auto using stamped_empty, stamped_isAllowed, stamped_cleanup.
Qed.

Lemma bounded_empty : bounded L ∅.
Proof. intros identifier data H. by rewrite lookup_empty in H. Qed.

Lemma bounded_isAllowed identifier now requests :
  1 <= maxRequests L →
  bounded L requests → bounded L (isAllowed L identifier now requests).1.
Proof.
  intros Hcap Hb other data. unfold isAllowed.
  destruct (requests !! identifier) as [old|] eqn:Hold; simpl;
    repeat case_bool_decide; simpl;
    destruct (decide (identifier = other)) as [->|Hne];
    rewrite ?lookup_insert_eq, ?lookup_insert_ne by done;
    try (intros [= <-]; simpl; try lia);
    eauto.
  pose proof (Hb _ _ Hold). lia.
Qed.

Lemma bounded_cleanup now requests :
  bounded L requests → bounded L (cleanup L now requests).
Proof.
  intros Hb identifier data. rewrite cleanup_lookup.
  destruct (requests !! identifier) as [old|] eqn:Hold; [|done].
  case_bool_decide; [done|]. intros [= <-]. eauto.
Qed.

(** A run of events preserves reachability. *)
Lemma reachable_run evs requests :
  reachable L requests → reachable L (run L evs requests).
Proof.
  revert requests. induction evs as [|ev evs IH]; intros requests Hr.
  - done.
  - simpl. apply IH. destruct ev; simpl; by constructor.
Qed.

(** An identifier without an entry stays without one until it is
    requested. *)
Lemma run_absent evs requests identifier :
  Forall (λ ev, ∀ now, ev ≠ Request identifier now) evs →
  requests !! identifier = None →
  run L evs requests !! identifier = None.
Proof.
  revert requests. induction evs as [|ev evs IH]; intros requests Hevs Habs.
  - done.
  - apply Forall_cons in Hevs as [Hev Hevs]. simpl. apply IH; [done|].
    destruct ev as [other now|now]; simpl.
    + rewrite isAllowed_other; [done|]. intros ->. by eapply Hev.
    + rewrite cleanup_lookup. by rewrite Habs.
Qed.
End Invariants.

(** ** Successive requests inside one window *)

Section Window.
Variable L : config.

(** From an entry with room for all of them, requests inside the window
    are counted one by one. *)
Lemma calls_counted identifier times requests data :
  requests !! identifier = Some data →
  Forall (λ t, t - firstRequest data <= windowMs L) times →
  count data + Z.of_nat (length times) <= maxRequests L →
  (calls L identifier times requests).2
  = (λ i, Allow (maxRequests L - (count data + Z.of_nat i)))
      <$> seq 1 (length times)
  ∧ (calls L identifier times requests).1 !! identifier
    = Some {| count := count data + Z.of_nat (length times);
              resetTime := resetTime data;
              firstRequest := firstRequest data |}
  ∧ ∀ other, other ≠ identifier →
      (calls L identifier times requests).1 !! other = requests !! other.
Proof.
  revert requests data.
  induction times as [|t times IH]; intros requests data Hdata Hin Hroom.
  - simpl. split; [done|]. split; [|done].
    rewrite Hdata. f_equal. destruct data; simpl; f_equal; lia.
  - apply Forall_cons in Hin as [Ht Hin]. simpl length in *.
    simpl calls.
    rewrite (isAllowed_counted L identifier t requests data) by (done || lia).
    specialize (IH (<[identifier := bump data]> requests) (bump data)).
    destruct (calls L identifier times (<[identifier := bump data]> requests))
      as [final rs] eqn:Hcalls.
    destruct IH as (Hrs & Hfinal & Hothers).
    { by rewrite lookup_insert_eq. }
    { done. }
    { simpl. lia. }
    cbn [fst snd length] in *. split; [|split].
    + rewrite Hrs. cbn [seq]. rewrite fmap_cons.
      rewrite <- (fmap_S_seq 1), <- list_fmap_compose.
      f_equal; try (f_equal; lia).
      apply list_fmap_ext. intros _ i _. simpl. f_equal. lia.
    + rewrite Hfinal. simpl. do 2 f_equal. lia.
    + intros other Hne. rewrite Hothers by done.
      by rewrite lookup_insert_ne.
Qed.

(** The same, starting with the request that opens the window. *)
Lemma calls_from_opening identifier start times requests :
  opens_window L requests identifier start →
  Forall (λ t, t - start <= windowMs L) times →
  Z.of_nat (length (start :: times)) <= maxRequests L →
  (calls L identifier (start :: times) requests).2
  = (λ i, Allow (maxRequests L - Z.of_nat i))
      <$> seq 1 (length (start :: times))
  ∧ (calls L identifier (start :: times) requests).1 !! identifier
    = Some {| count := Z.of_nat (length (start :: times));
              resetTime := start;
              firstRequest := start |}.
Proof.
  intros Hopen Hin Hlen. simpl length in *. simpl calls.
  rewrite (isAllowed_opens L identifier start requests Hopen).
  pose proof (calls_counted identifier times
                (<[identifier := fresh_entry start]> requests)
                (fresh_entry start)) as Hc.
  destruct (calls L identifier times
              (<[identifier := fresh_entry start]> requests))
    as [final rs] eqn:Hcalls.
  destruct Hc as (Hrs & Hfinal & _).
  { by rewrite lookup_insert_eq. }
  { done. }
  { simpl. lia. }
  cbn [fst snd length] in *. split.
  - rewrite Hrs. cbn [seq]. rewrite fmap_cons.
    rewrite <- (fmap_S_seq 1), <- list_fmap_compose.
    f_equal; try (f_equal; lia).
    apply list_fmap_ext. intros _ i _. simpl. f_equal. lia.
  - rewrite Hfinal. simpl. do 2 f_equal. lia.
Qed.

(** With other identifiers' requests and sweeps in between, the count goes
    on as if they were not there. *)
Lemma answers_counted identifier evs requests data :
  requests !! identifier = Some data →
  resetTime data = firstRequest data →
  Forall (within L identifier (firstRequest data)) evs →
  count data + Z.of_nat (length (answers L identifier evs requests))
    <= maxRequests L →
  answers L identifier evs requests
  = (λ i, Allow (maxRequests L - (count data + Z.of_nat i)))
      <$> seq 1 (length (answers L identifier evs requests)).
Proof.
  revert requests data.
  induction evs as [|ev evs IH]; intros requests data Hdata Hst Hin Hroom.
  - done.
  - apply Forall_cons in Hin as [Hev Hin].
    destruct ev as [other now|now]; cbn [answers] in *.
    + destruct (isAllowed L other now requests) as [requests' r] eqn:Hcall.
      case_bool_decide as Hsame.
      * subst other. cbn [length] in *.
        rewrite (isAllowed_counted L identifier now requests data)
          in Hcall by (auto || lia).
        injection Hcall as <- <-.
        rewrite (IH (<[identifier := bump data]> requests) (bump data));
          [|by rewrite lookup_insert_eq|done|done|simpl; lia].
        rewrite length_fmap, length_seq. cbn [seq]. rewrite fmap_cons.
        rewrite <- (fmap_S_seq 1), <- list_fmap_compose.
        f_equal; try (f_equal; lia).
        apply list_fmap_ext. intros _ i _. simpl. f_equal. lia.
      * apply (f_equal fst) in Hcall. simpl in Hcall. subst requests'.
        apply IH; [|done|done|done].
        by rewrite isAllowed_other.
    + apply IH; [|done|done|done].
      rewrite cleanup_lookup, Hdata.
      simpl in Hev. by rewrite bool_decide_eq_false_2 by lia.
Qed.

(** Requests inside one window, served among other traffic: from the
    request that opens the window on, the identifier's i-th request is
    admitted with [remaining = maxRequests - i], as long as no more than
    [maxRequests] of them arrive. *)
Lemma requests_within_window_among_others identifier start evs requests :
  opens_window L requests identifier start →
  Forall (within L identifier start) evs →
  Z.of_nat (length (answers L identifier
                      (Request identifier start :: evs) requests))
    <= maxRequests L →
  answers L identifier (Request identifier start :: evs) requests
  = (λ i, Allow (maxRequests L - Z.of_nat i))
      <$> seq 1 (length (answers L identifier
                           (Request identifier start :: evs) requests)).
Proof.
  intros Hopen Hin Hroom. cbn [answers] in *.
  rewrite (isAllowed_opens L identifier start requests Hopen) in *.
  rewrite bool_decide_eq_true_2 in * by done. cbn [length] in *.
  rewrite (answers_counted identifier evs
             (<[identifier := fresh_entry start]> requests)
             (fresh_entry start));
    [|by rewrite lookup_insert_eq|done|done|simpl; lia].
  rewrite length_fmap, length_seq. cbn [seq]. rewrite fmap_cons.
  rewrite <- (fmap_S_seq 1), <- list_fmap_compose.
  f_equal; try (f_equal; lia).
  apply list_fmap_ext. intros _ i _. simpl. f_equal. lia.
Qed.
End Window.

(** ** The admission policy *)

(** C1. An identifier with no entry in the map is admitted on its first
    request whatever [maxRequests] is (0 included): the result is
    [allowed = true] with [remaining = maxRequests - 1], the identifier gets
    the entry [{count: 1, firstRequest: now}], and no other identifier is
    touched. *)
Theorem first_request_admitted (L : config) (identifier : string) (now : Z)
    (requests : gmap string entry) :
  requests !! identifier = None →
  allowed (isAllowed L identifier now requests).2 = true
  ∧ remaining (isAllowed L identifier now requests).2 = maxRequests L - 1
  ∧ (isAllowed L identifier now requests).1 !! identifier
    = Some {| count := 1; resetTime := now; firstRequest := now |}
  ∧ ∀ other, other ≠ identifier →
      (isAllowed L identifier now requests).1 !! other = requests !! other.
Proof.
  intros Habsent. rewrite isAllowed_absent by done. simpl.
  repeat split.
  - by rewrite lookup_insert_eq.
  - intros other Hne. by rewrite lookup_insert_ne.
Qed.

Lemma first_request_admitted_zero_cap :
  let L := {| windowMs := 60000; maxRequests := 0 |} in
  allowed (isAllowed L "1.2.3.4" 5 ∅).2 = true
  ∧ remaining (isAllowed L "1.2.3.4" 5 ∅).2 = -1
  ∧ (isAllowed L "1.2.3.4" 5 ∅).1 !! "1.2.3.4"%string
    = Some {| count := 1; resetTime := 5; firstRequest := 5 |}.
Proof.
  intros L.
  destruct (first_request_admitted L "1.2.3.4" 5 ∅) as (Ha & Hr & He & _).
  { reflexivity. }
  split; [exact Ha|]. split; [exact Hr|exact He].
Defined.

(** C2. Starting with the request that opens a window (no entry, or an
    expired one), a sequence of at most [maxRequests] requests for the
    identifier, each within [windowMs] of the first, is admitted throughout:
    the i-th request (counting from 1) returns [allowed = true] with
    [remaining = maxRequests - i], so [remaining] goes down by exactly one
    from each request to the next. *)
Theorem requests_within_window_admitted (L : config) (identifier : string)
    (start : Z) (times : list Z) (requests : gmap string entry) :
  opens_window L requests identifier start →
  Forall (λ t, t - start <= windowMs L) times →
  Z.of_nat (length (start :: times)) <= maxRequests L →
  (calls L identifier (start :: times) requests).2
  = (λ i, Allow (maxRequests L - Z.of_nat i))
      <$> seq 1 (length (start :: times)).
Proof.
  intros Hopen Hin Hlen.
  by destruct (calls_from_opening L identifier start times requests).
Qed.

Lemma requests_within_window_admitted_ten :
  (calls {| windowMs := 60000; maxRequests := 10 |} "1.2.3.4"
         [0; 100; 200; 300; 400; 500; 600; 700; 800; 900] ∅).2
  = [Allow 9; Allow 8; Allow 7; Allow 6; Allow 5;
     Allow 4; Allow 3; Allow 2; Allow 1; Allow 0].
Proof.
  apply (requests_within_window_admitted
           {| windowMs := 60000; maxRequests := 10 |} "1.2.3.4" 0
           [100; 200; 300; 400; 500; 600; 700; 800; 900] ∅).
  - exact I.
  - repeat constructor; simpl; lia.
  - simpl. lia.
Defined.

(** C4. When an identifier has an entry and a request arrives strictly
    after [firstRequest + windowMs], the entry is replaced by
    [{count: 1, firstRequest: now}] and the request is admitted with
    [remaining = maxRequests - 1], whatever the old entry's count was. *)
Theorem expired_window_resets (L : config) (identifier : string) (now : Z)
    (requests : gmap string entry) (data : entry) :
  requests !! identifier = Some data →
  now > firstRequest data + windowMs L →
  (isAllowed L identifier now requests).2 = Allow (maxRequests L - 1)
  ∧ (isAllowed L identifier now requests).1 !! identifier
    = Some {| count := 1; resetTime := now; firstRequest := now |}
  ∧ ∀ other, other ≠ identifier →
      (isAllowed L identifier now requests).1 !! other = requests !! other.
Proof.
  intros Hdata Hlate.
  rewrite (isAllowed_expired L identifier now requests data) by (done || lia).
  simpl. repeat split.
  - by rewrite lookup_insert_eq.
  - intros other Hne. by rewrite lookup_insert_ne.
Qed.

Lemma expired_window_resets_after_denial :
  let L := {| windowMs := 60000; maxRequests := 10 |} in
  let requests := (calls L "1.2.3.4" (replicate 11 0) ∅).1 in
  (isAllowed L "1.2.3.4" 61000 requests).2 = Allow 9
  ∧ (isAllowed L "1.2.3.4" 61000 requests).1 !! "1.2.3.4"%string
    = Some {| count := 1; resetTime := 61000; firstRequest := 61000 |}.
Proof.
  intros L requests.
  destruct (expired_window_resets L "1.2.3.4" 61000 requests
              {| count := 10; resetTime := 0; firstRequest := 0 |})
    as (Hr & He & _).
  - vm_compute. reflexivity.
  - simpl. lia.
  - split; [exact Hr|exact He].
Defined.

(** C7. A denied request does not change the map: neither the identifier's
    own entry nor any other. *)
Theorem denied_request_leaves_map (L : config) (identifier : string)
    (now : Z) (requests : gmap string entry) :
  allowed (isAllowed L identifier now requests).2 = false →
  (isAllowed L identifier now requests).1 = requests.
Proof.
  unfold isAllowed.
  destruct (requests !! identifier) as [data|]; simpl;
    repeat case_bool_decide; simpl; done.
Qed.

Lemma denied_request_leaves_map_eleventh :
  let L := {| windowMs := 60000; maxRequests := 10 |} in
  let requests := (calls L "1.2.3.4" (replicate 10 0) ∅).1 in
  (isAllowed L "1.2.3.4" 1000 requests).1 = requests.
Proof.
  intros L requests.
  apply (denied_request_leaves_map L "1.2.3.4" 1000 requests).
  vm_compute. reflexivity.
Defined.

(** The request after a full window: exactly [maxRequests] requests have
    been admitted since the window opened, and one more arrives before the
    window's expiry test passes. *)
Lemma request_over_cap (L : config) (identifier : string) (start : Z)
    (times : list Z) (now : Z) (before : gmap string entry) :
  1 <= maxRequests L →
  opens_window L before identifier start →
  Forall (λ t, t - start <= windowMs L) times →
  Z.of_nat (length (start :: times)) = maxRequests L →
  now - start <= windowMs L →
  isAllowed L identifier now (calls L identifier (start :: times) before).1
  = ((calls L identifier (start :: times) before).1,
     Deny 0 (ceil_div (windowMs L - (now - start)) 1000)
            (start + windowMs L)).
Proof.
  intros Hcap Hopen Hin Hlen Hnow.
  destruct (calls_from_opening L identifier start times before)
    as [_ Hfinal]; [done|done|lia|].
  by rewrite (isAllowed_denied L identifier now _ _ Hfinal)
    by (cbn [count firstRequest]; lia).
Qed.

(** C3, as the code has it. For an entry with [count >= maxRequests] whose
    window has not expired ([now - firstRequest <= windowMs]), [isAllowed]
    returns [allowed = false], [remaining = 0],
    [retryAfter = ceil((windowMs - (now - firstRequest)) / 1000)] and
    [resetTime = firstRequest + windowMs], and leaves the map as it was.
    [retryAfter] is never negative; it is positive exactly when
    [now - firstRequest < windowMs], and 0 for a request arriving at
    [firstRequest + windowMs] on the millisecond.  In particular, with
    [maxRequests >= 1], the request following [maxRequests] admitted ones in
    one window is denied in this way. *)
Theorem full_window_denies :
  (∀ (L : config) (identifier : string) (now : Z)
     (requests : gmap string entry) (data : entry),
     requests !! identifier = Some data →
     count data >= maxRequests L →
     now - firstRequest data <= windowMs L →
     isAllowed L identifier now requests
     = (requests,
        Deny 0 (ceil_div (windowMs L - (now - firstRequest data)) 1000)
               (firstRequest data + windowMs L))
     ∧ 0 <= ceil_div (windowMs L - (now - firstRequest data)) 1000
     ∧ (0 < ceil_div (windowMs L - (now - firstRequest data)) 1000
        ↔ now - firstRequest data < windowMs L))
  ∧ (∀ (L : config) (identifier : string) (start : Z) (times : list Z)
       (now : Z) (before : gmap string entry),
       1 <= maxRequests L →
       opens_window L before identifier start →
       Forall (λ t, t - start <= windowMs L) times →
       Z.of_nat (length (start :: times)) = maxRequests L →
       now - start <= windowMs L →
       isAllowed L identifier now
         (calls L identifier (start :: times) before).1
       = ((calls L identifier (start :: times) before).1,
          Deny 0 (ceil_div (windowMs L - (now - start)) 1000)
                 (start + windowMs L))
       ∧ (0 < ceil_div (windowMs L - (now - start)) 1000
          ↔ now - start < windowMs L)).
Proof.
  split.
  - intros L identifier now requests data Hdata Hfull Hlive.
    split; [by apply isAllowed_denied|]. split.
    + apply ceil_div_nonneg; lia.
    + rewrite ceil_div_pos by lia. lia.
  - intros L identifier start times now before Hcap Hopen Hin Hlen Hnow.
    split; [by apply request_over_cap|].
    rewrite ceil_div_pos by lia. lia.
Qed.

Lemma full_window_denies_eleventh :
  let L := {| windowMs := 60000; maxRequests := 10 |} in
  isAllowed L "1.2.3.4" 1000 (calls L "1.2.3.4" (replicate 10 0) ∅).1
  = ((calls L "1.2.3.4" (replicate 10 0) ∅).1, Deny 0 59 60000)
  ∧ isAllowed L "1.2.3.4" 1000
      {[ "1.2.3.4"%string
         := {| count := 10; resetTime := 0; firstRequest := 0 |} ]}
    = ({[ "1.2.3.4"%string
          := {| count := 10; resetTime := 0; firstRequest := 0 |} ]},
       Deny 0 59 60000).
Proof.
  intros L. split.
  - apply (proj2 full_window_denies L "1.2.3.4" 0 (replicate 9 0) 1000 ∅).
    + simpl. lia.
    + exact I.
    + repeat constructor; simpl; lia.
    + simpl. lia.
    + simpl. lia.
  - apply (proj1 full_window_denies L "1.2.3.4" 1000
             {[ "1.2.3.4"%string
                := {| count := 10; resetTime := 0; firstRequest := 0 |} ]}
             {| count := 10; resetTime := 0; firstRequest := 0 |}).
    + reflexivity.
    + simpl. lia.
    + simpl. lia.
Defined.

(** C3 as stated fails on the last millisecond of a window: ten requests at
    time 0 fill the window of a limiter with [windowMs = 60000] and
    [maxRequests = 10]; the eleventh, at time 60000, meets an entry with
    [count >= maxRequests] and [now - firstRequest <= windowMs], is denied,
    and its [retryAfter] is 0, which is not positive. *)
Lemma retry_after_zero_at_window_end :
  let L := {| windowMs := 60000; maxRequests := 10 |} in
  let requests := (calls L "1.2.3.4" (replicate 10 0) ∅).1 in
  requests !! "1.2.3.4"%string
  = Some {| count := 10; resetTime := 0; firstRequest := 0 |}
  ∧ 10 >= maxRequests L
  ∧ 60000 - 0 <= windowMs L
  ∧ (isAllowed L "1.2.3.4" 60000 requests).2 = Deny 0 0 60000
  ∧ ¬ (∀ r, retryAfter (isAllowed L "1.2.3.4" 60000 requests).2 = Some r
            → 0 < r).
Proof.
  intros L requests.
  assert (Hres : (isAllowed L "1.2.3.4" 60000 requests).2 = Deny 0 0 60000)
    by (vm_compute; reflexivity).
  split; [vm_compute; reflexivity|].
  split; [simpl; lia|]. split; [simpl; lia|]. split; [exact Hres|].
  intros Hpos. specialize (Hpos 0). rewrite Hres in Hpos.
  specialize (Hpos eq_refl). lia.
Qed.

(** ** The sweep *)

(** On a map a limiter can hold, the sweep's test reads the time the window
    opened. *)
Lemma cleanup_lookup_reachable (L : config) (requests : gmap string entry)
    (now : Z) (identifier : string) (data : entry) :
  reachable L requests →
  requests !! identifier = Some data →
  cleanup L now requests !! identifier
  = if bool_decide (now - firstRequest data > windowMs L)
    then None else Some data.
Proof.
  intros Hreach Hdata.
  pose proof (reachable_stamped L requests Hreach identifier data Hdata)
    as Hstamp.
  by rewrite cleanup_lookup, Hdata, Hstamp.
Qed.

(** C5, as the code has it. On a map a limiter can hold, [cleanup] at time
    [now] deletes an identifier's entry if and only if
    [now - firstRequest > windowMs], that is, as soon as the entry's window
    has expired (the very test under which the next request would reset it);
    an entry it does not delete it leaves as it was, and it creates none. *)
Theorem cleanup_removes_expired (L : config) (requests : gmap string entry)
    (now : Z) (identifier : string) (data : entry) :
  reachable L requests →
  requests !! identifier = Some data →
  (cleanup L now requests !! identifier = None
   ↔ now - firstRequest data > windowMs L)
  ∧ (now - firstRequest data <= windowMs L →
     cleanup L now requests !! identifier = Some data)
  ∧ ∀ other, requests !! other = None →
      cleanup L now requests !! other = None.
Proof.
  intros Hreach Hdata.
  rewrite (cleanup_lookup_reachable L requests now identifier data)
    by done.
  repeat split.
  - case_bool_decide; [done|]. intros [=].
  - intros Hexp. by rewrite bool_decide_eq_true_2.
  - intros Hlive. by rewrite bool_decide_eq_false_2 by lia.
  - intros other Hnone. by rewrite cleanup_lookup, Hnone.
Qed.

Lemma cleanup_removes_expired_sample :
  let L := {| windowMs := 60000; maxRequests := 10 |} in
  let requests := (isAllowed L "1.2.3.4" 0 ∅).1 in
  cleanup L 60000 requests !! "1.2.3.4"%string
  = Some {| count := 1; resetTime := 0; firstRequest := 0 |}
  ∧ cleanup L 60001 requests !! "1.2.3.4"%string = None.
Proof.
  intros L requests.
  destruct (cleanup_removes_expired L requests 60000 "1.2.3.4"
              {| count := 1; resetTime := 0; firstRequest := 0 |})
    as (_ & Hkeep & _).
  { apply reach_isAllowed, reach_new. }
  { reflexivity. }
  destruct (cleanup_removes_expired L requests 60001 "1.2.3.4"
              {| count := 1; resetTime := 0; firstRequest := 0 |})
    as (Hgone & _ & _).
  { apply reach_isAllowed, reach_new. }
  { reflexivity. }
  split.
  - apply Hkeep. simpl. lia.
  - apply Hgone. simpl. lia.
Defined.

(** C5 as stated fails: an entry whose window opened at time 0 under
    [windowMs = 60000] is deleted by a sweep at time 90000, although
    [90000 - 0 > 2 * 60000] does not hold. *)
Lemma cleanup_does_not_wait_two_windows :
  let L := {| windowMs := 60000; maxRequests := 10 |} in
  let requests := (isAllowed L "1.2.3.4" 0 ∅).1 in
  reachable L requests
  ∧ requests !! "1.2.3.4"%string
    = Some {| count := 1; resetTime := 0; firstRequest := 0 |}
  ∧ cleanup L 90000 requests !! "1.2.3.4"%string = None
  ∧ ¬ (90000 - 0 > 2 * windowMs L)
  ∧ ¬ (cleanup L 90000 requests !! "1.2.3.4"%string = None
       ↔ 90000 - 0 > 2 * windowMs L).
Proof.
  intros L requests.
  assert (Hgone : cleanup L 90000 requests !! "1.2.3.4"%string = None)
    by (vm_compute; reflexivity).
  split; [apply reach_isAllowed, reach_new|].
  split; [reflexivity|]. split; [exact Hgone|].
  split; [simpl; lia|].
  intros [Hto _]. specialize (Hto Hgone). simpl in Hto. lia.
Qed.

(** C6. On a map a limiter can hold, [cleanup] keeps every entry whose
    window has not expired ([now - firstRequest <= windowMs]), unchanged.
    And once [cleanup] has deleted an identifier's entry, the identifier's
    next request, whatever happened to other identifiers and however many
    sweeps ran in between, is treated as a first request: admitted with
    [remaining = maxRequests - 1] and given the entry
    [{count: 1, firstRequest: now}]. *)
Theorem cleanup_keeps_live_and_forgets_evicted (L : config)
    (requests : gmap string entry) (now : Z) (identifier : string)
    (data : entry) :
  reachable L requests →
  requests !! identifier = Some data →
  (now - firstRequest data <= windowMs L →
   cleanup L now requests !! identifier = Some data)
  ∧ (cleanup L now requests !! identifier = None →
     ∀ (between : list event) (later : Z),
       Forall (λ ev, ∀ t, ev ≠ Request identifier t) between →
       let held := run L between (cleanup L now requests) in
       held !! identifier = None
       ∧ isAllowed L identifier later held
         = (<[identifier := {| count := 1; resetTime := later;
                               firstRequest := later |}]> held,
            Allow (maxRequests L - 1))).
Proof.
  intros Hreach Hdata. split.
  - intros Hlive.
    rewrite (cleanup_lookup_reachable L requests now identifier data)
      by done.
    by rewrite bool_decide_eq_false_2 by lia.
  - intros Hgone between later Hbetween held.
    assert (Habsent : held !! identifier = None)
      by (by apply run_absent).
    split; [done|]. by apply isAllowed_absent.
Qed.

Lemma cleanup_keeps_live_and_forgets_evicted_sample :
  let L := {| windowMs := 60000; maxRequests := 10 |} in
  let requests := (isAllowed L "1.2.3.4" 0 ∅).1 in
  cleanup L 30000 requests !! "1.2.3.4"%string
  = Some {| count := 1; resetTime := 0; firstRequest := 0 |}
  ∧ (isAllowed L "1.2.3.4" 95000
       (run L [Request "5.6.7.8" 91000; Sweep 92000]
            (cleanup L 90000 requests))).2
    = Allow 9.
Proof.
  intros L requests.
  destruct (cleanup_keeps_live_and_forgets_evicted L requests 30000
              "1.2.3.4" {| count := 1; resetTime := 0; firstRequest := 0 |})
    as [Hkeep _].
  { apply reach_isAllowed, reach_new. }
  { reflexivity. }
  destruct (cleanup_keeps_live_and_forgets_evicted L requests 90000
              "1.2.3.4" {| count := 1; resetTime := 0; firstRequest := 0 |})
    as [_ Hnew].
  { apply reach_isAllowed, reach_new. }
  { reflexivity. }
  split.
  - apply Hkeep. simpl. lia.
  - destruct (Hnew ltac:(vm_compute; reflexivity)
                [Request "5.6.7.8" 91000; Sweep 92000] 95000) as [_ Hcall].
    + repeat constructor; intros t; discriminate.
    + by rewrite Hcall.
Defined.

(** ** The bound on the counters *)

(** C10. With [maxRequests >= 1], the property that every entry has
    [1 <= count <= maxRequests] holds of the constructor's empty map, is
    preserved by every [isAllowed] and every [cleanup], and so holds of
    every map the limiter can hold. *)
Theorem count_stays_within_cap (L : config) :
  1 <= maxRequests L →
  bounded L ∅
  ∧ (∀ requests identifier now,
       bounded L requests →
       bounded L (isAllowed L identifier now requests).1)
  ∧ (∀ requests now,
       bounded L requests → bounded L (cleanup L now requests))
  ∧ (∀ requests identifier data,
       reachable L requests →
       requests !! identifier = Some data →
       1 <= count data <= maxRequests L).
Proof.
  intros Hcap. split; [apply bounded_empty|].
  split; [intros; by apply bounded_isAllowed|].
  split; [intros; by apply bounded_cleanup|].
  intros requests identifier data Hreach.
  revert identifier data.
  induction Hreach as [|requests identifier now _ IH|requests now _ IH].
  - apply bounded_empty.
  - by apply bounded_isAllowed.
  - by apply bounded_cleanup.
Qed.

Lemma count_stays_within_cap_sample :
  let L := {| windowMs := 60000; maxRequests := 10 |} in
  let requests :=
    run L [Request "1.2.3.4" 0; Request "1.2.3.4" 1; Sweep 2;
           Request "1.2.3.4" 3] ∅ in
  requests !! "1.2.3.4"%string
  = Some {| count := 3; resetTime := 0; firstRequest := 0 |}
  ∧ 1 <= 3 <= maxRequests L.
Proof.
  intros L requests.
  assert (Hdata : requests !! "1.2.3.4"%string
                  = Some {| count := 3; resetTime := 0; firstRequest := 0 |})
    by (vm_compute; reflexivity).
  split; [exact Hdata|].
  destruct (count_stays_within_cap L) as (_ & _ & _ & Hall).
  { simpl. lia. }
  apply (Hall requests "1.2.3.4"%string
           {| count := 3; resetTime := 0; firstRequest := 0 |});
    [|exact Hdata].
  apply reachable_run, reach_new.
Defined.

(** ** Instances and middlewares *)

Import Middleware.

Section Instances.
Implicit Types (h : gmap positive (gmap string entry)) (a b : limiter).

(** The constructor's map is one no earlier instance holds. *)
Lemma new_RateLimiter_fresh w m h :
  requests (new_RateLimiter w m h).1 ∉ dom h.
Proof. simpl. apply is_fresh. Qed.

Lemma isAllowed_on_other a identifier now h (r : positive) :
  requests a ≠ r →
  (isAllowed_on a identifier now h).1 !! r = h !! r.
Proof.
  intros Hne. unfold isAllowed_on.
  destruct (isAllowed (settings a) identifier now (h !!! requests a)).
  simpl. by rewrite lookup_insert_ne.
Qed.

Lemma cleanup_on_other a now h (r : positive) :
  requests a ≠ r → cleanup_on a now h !! r = h !! r.
Proof. intros Hne. unfold cleanup_on. by rewrite lookup_insert_ne. Qed.

Lemma step_on_other h (act : limiter * event) (r : positive) :
  requests act.1 ≠ r → step_on h act !! r = h !! r.
Proof.
  intros Hne. unfold step_on. destruct act.2.
  - by apply isAllowed_on_other.
  - by apply cleanup_on_other.
Qed.

Lemma run_on_other (acts : list (limiter * event)) h (r : positive) :
  Forall (λ act, requests act.1 ≠ r) acts →
  run_on acts h !! r = h !! r.
Proof.
  unfold run_on. revert h.
  induction acts as [|act acts IH]; intros h Hacts; [done|].
  apply Forall_cons in Hacts as [Hact Hacts]. simpl.
  rewrite IH by done. by apply step_on_other.
Qed.

(** An instance's answer depends on the heap through its own map only. *)
Lemma isAllowed_on_result b identifier now h h' :
  h' !! requests b = h !! requests b →
  (isAllowed_on b identifier now h').2 = (isAllowed_on b identifier now h).2.
Proof.
  intros Hsame. unfold isAllowed_on.
  rewrite !lookup_total_alt, Hsame.
  by destruct (isAllowed (settings b) identifier now _).
Qed.

Lemma step_on_dom h (act : limiter * event) : dom h ⊆ dom (step_on h act).
Proof.
  unfold step_on, isAllowed_on, cleanup_on. destruct act.2.
  - destruct (isAllowed _ _ _ _). simpl. rewrite dom_insert. set_solver.
  - rewrite dom_insert. set_solver.
Qed.

(** Instances made by the constructor hold pairwise different maps, all
    of them in the heap. *)
Lemma built_apart made h :
  built made h →
  NoDup (requests <$> made) ∧ ∀ a, a ∈ made → requests a ∈ dom h.
Proof.
  induction 1 as [|made h w m _ [IHnd IHdom]|made h act _ [IHnd IHdom] Hin].
  - split; [constructor|]. intros a Ha. by apply elem_of_nil in Ha.
  - pose proof (new_RateLimiter_fresh w m h) as Hfresh. split.
    + rewrite fmap_cons. apply NoDup_cons. split; [|done].
      intros (a & Heq & Ha)%list_elem_of_fmap.
      apply Hfresh. rewrite Heq. by apply IHdom.
    + intros a [->|Ha]%elem_of_cons; simpl.
      * rewrite dom_insert. set_solver.
      * rewrite dom_insert. apply IHdom in Ha. set_solver.
  - split; [done|]. intros a Ha. by apply step_on_dom, IHdom.
Qed.
End Instances.

(** C8. Two distinct instances made by the constructor share no counters:
    whatever one of them is made to do (any number of requests for any
    identifiers, and sweeps), the other's map is exactly what it was, and
    so is the answer the other gives to any request. *)
Theorem instances_share_no_counters (made : list limiter)
    (h : gmap positive (gmap string entry)) (i j : nat) (a b : limiter)
    (acts : list (limiter * event)) :
  built made h →
  made !! i = Some a →
  made !! j = Some b →
  i ≠ j →
  Forall (λ act, act.1 = a) acts →
  run_on acts h !! requests b = h !! requests b
  ∧ ∀ identifier now,
      (isAllowed_on b identifier now (run_on acts h)).2
      = (isAllowed_on b identifier now h).2.
Proof.
  intros Hbuilt Ha Hb Hij Hacts.
  destruct (built_apart made h Hbuilt) as [Hnd _].
  assert (Hne : requests a ≠ requests b).
  { intros Heq. apply Hij.
    apply (NoDup_lookup (requests <$> made) i j (requests a)); [done| |].
    - by rewrite list_lookup_fmap, Ha.
    - by rewrite list_lookup_fmap, Hb, Heq. }
  assert (Hsame : run_on acts h !! requests b = h !! requests b).
  { apply run_on_other. eapply Forall_impl; [exact Hacts|].
    intros act ->. exact Hne. }
  split; [exact Hsame|].
  intros identifier now. by apply isAllowed_on_result.
Qed.

Lemma instances_share_no_counters_general_strict :
  let acts :=
    replicate 101 (generalLimiter, Request "1.2.3.4" 0) in
  (isAllowed_on generalLimiter "1.2.3.4" 0 (run_on acts boot_heap)).2
  = Deny 0 900 900000
  ∧ run_on acts boot_heap !! requests strictLimiter
    = boot_heap !! requests strictLimiter
  ∧ (isAllowed_on strictLimiter "1.2.3.4" 0 (run_on acts boot_heap)).2
    = Allow 9.
Proof.
  intros acts.
  destruct (instances_share_no_counters
              [strictLimiter; generalLimiter] boot_heap 1 0
              generalLimiter strictLimiter acts) as [Hmap Hanswer].
  - apply (built_new [generalLimiter]
             (new_RateLimiter (15 * 60 * 1000) 100 ∅).2 (60 * 1000) 10).
    apply (built_new [] ∅ (15 * 60 * 1000) 100). apply built_none.
  - reflexivity.
  - reflexivity.
  - lia.
  - apply Forall_replicate. reflexivity.
  - split; [vm_compute; reflexivity|]. split; [exact Hmap|].
    rewrite Hanswer. vm_compute. reflexivity.
Defined.

(** C9. For a request whose method is none of POST, PUT, PATCH and DELETE,
    [strictRateLimiter] calls [next()] at once: the heap of maps (the strict
    limiter's included) is returned as it was, whatever it holds, no header
    is set and no error is passed on. *)
Theorem strict_skips_reads (req : request) (now : Z)
    (h : gmap positive (gmap string entry)) :
  method req ∉ ["POST"; "PUT"; "PATCH"; "DELETE"]%string →
  strictRateLimiter req now h = (h, {| headers := []; outcome := Next |}).
Proof.
  intros Hread. unfold strictRateLimiter.
  by rewrite bool_decide_eq_false_2.
Qed.

Lemma strict_skips_reads_get :
  let req := {| method := "GET"; ip := Some "1.2.3.4"%string;
                connection_remoteAddress := None;
                socket_remoteAddress := None;
                x_forwarded_for := None |} in
  let h := (run_on (replicate 10 (strictLimiter, Request "1.2.3.4" 0))
                   boot_heap) in
  strictRateLimiter req 1000 h = (h, {| headers := []; outcome := Next |}).
Proof.
  intros req h. apply (strict_skips_reads req 1000 h).
  simpl. intros Hin. repeat (apply elem_of_cons in Hin as [Hin|Hin];
    [discriminate Hin|]). by apply elem_of_nil in Hin.
Defined.

(** ** Further properties of the limiter *)

Import Traffic.

(** What [isAllowed] does for an identifier is decided by that identifier's
    entry alone. *)
Lemma isAllowed_local (L : config) (identifier : string) (now : Z)
    (m1 m2 : gmap string entry) :
  m1 !! identifier = m2 !! identifier →
  (isAllowed L identifier now m1).2 = (isAllowed L identifier now m2).2
  ∧ (isAllowed L identifier now m1).1 !! identifier
    = (isAllowed L identifier now m2).1 !! identifier.
Proof.
  intros Hsame. unfold isAllowed. rewrite Hsame.
  destruct (m2 !! identifier) as [data|] eqn:Hdata; simpl;
    repeat case_bool_decide; simpl;
    rewrite ?lookup_insert_eq; try done.
  by rewrite Hsame.
Qed.

(** X1. [isAllowed] never deletes: after a request the map holds exactly
    the identifiers it held before, plus the requesting one.  Entries go
    away through [cleanup] only, which adds none. *)
Theorem requests_only_add (L : config) (identifier : string) (now t : Z)
    (m : gmap string entry) :
  dom (isAllowed L identifier now m).1 = {[identifier]} ∪ dom m
  ∧ dom (cleanup L t m) ⊆ dom m.
Proof.
  split.
  - unfold isAllowed.
    destruct (m !! identifier) as [data|] eqn:Hdata; simpl;
      repeat case_bool_decide; simpl;
      rewrite ?dom_insert_L; try done.
    apply elem_of_dom_2 in Hdata. symmetry.
    apply subseteq_union_1_L. by apply singleton_subseteq_l.
  - intros other. rewrite !elem_of_dom, cleanup_lookup.
    destruct (m !! other) as [data|]; [by eauto|].
    intros [data Hdata]. discriminate Hdata.
Qed.

(** X2. One client cannot use up another's quota: the results an
    identifier gets in a run are those it would get if all requests by other
    identifiers were left out of the run. *)
Theorem answers_ignore_other_identifiers (L : config) (identifier : string)
    (evs : list event) (m : gmap string entry) :
  answers L identifier evs m
  = answers L identifier (List.filter (concerns identifier) evs) m.
Proof.
  enough (∀ m1 m2, m1 !! identifier = m2 !! identifier →
            answers L identifier evs m1
            = answers L identifier
                (List.filter (concerns identifier) evs) m2) as Hgen
    by (by apply Hgen).
  induction evs as [|ev evs IH]; intros m1 m2 Hsame; [done|].
  destruct ev as [other now|now]; cbn [List.filter concerns answers].
  - destruct (isAllowed L other now m1) as [m1' r1] eqn:Hcall1.
    case_bool_decide as Hother.
    + subst other. cbn [answers].
      destruct (isAllowed L identifier now m2) as [m2' r2] eqn:Hcall2.
      rewrite bool_decide_eq_true_2 by done.
      destruct (isAllowed_local L identifier now m1 m2 Hsame) as [Hr Hm].
      rewrite Hcall1, Hcall2 in Hr, Hm. simpl in Hr, Hm. subst r2.
      f_equal. by apply IH.
    + apply IH. apply (f_equal fst) in Hcall1. simpl in Hcall1.
      subst m1'. by rewrite isAllowed_other.
  - apply IH. by rewrite !cleanup_lookup, Hsame.
Qed.

Lemma shadows_later (L : config) (T T' : Z) (swept kept : gmap string entry) :
  T <= T' → shadows L T swept kept → shadows L T' swept kept.
Proof.
  intros Hle Hsh identifier.
  destruct (Hsh identifier) as [Hsame|(Hnone & data & Hdata & Hexp)].
  - by left.
  - right. split; [done|]. exists data. split; [done|lia].
Qed.

Lemma shadows_isAllowed (L : config) (T now : Z) (identifier : string)
    (swept kept : gmap string entry) :
  T <= now →
  shadows L T swept kept →
  (isAllowed L identifier now swept).2 = (isAllowed L identifier now kept).2
  ∧ shadows L now (isAllowed L identifier now swept).1
                  (isAllowed L identifier now kept).1.
Proof.
  intros Hle Hsh.
  assert (Hboth :
    (isAllowed L identifier now swept).2 = (isAllowed L identifier now kept).2
    ∧ (isAllowed L identifier now swept).1 !! identifier
      = (isAllowed L identifier now kept).1 !! identifier).
  { destruct (Hsh identifier) as [Hsame|(Hnone & data & Hdata & Hexp)].
    - by apply isAllowed_local.
    - rewrite (isAllowed_absent L identifier now swept Hnone).
      rewrite (isAllowed_expired L identifier now kept data Hdata)
        by lia.
      simpl. by rewrite !lookup_insert_eq. }
  destruct Hboth as [Hres Hentry]. split; [done|].
  intros other. destruct (decide (identifier = other)) as [<-|Hne].
  - by left.
  - rewrite !isAllowed_other by done.
    by apply (shadows_later L T now).
Qed.

Lemma shadows_cleanup (L : config) (T t : Z) (swept kept : gmap string entry) :
  T <= t →
  stamped swept →
  shadows L T swept kept →
  shadows L t (cleanup L t swept) kept.
Proof.
  intros Hle Hst Hsh identifier. rewrite cleanup_lookup.
  destruct (Hsh identifier) as [Hsame|(Hnone & data & Hdata & Hexp)].
  - destruct (swept !! identifier) as [data|] eqn:Hdata; [|by left].
    case_bool_decide as Hgone; [|by left].
    right. split; [done|]. exists data. split; [done|].
    by rewrite <- (Hst identifier data Hdata).
  - rewrite Hnone. right. split; [done|].
    exists data. split; [done|lia].
Qed.

(** X3. The sweep is invisible to clients as long as the clock does not run
    backwards: on a map written by [isAllowed], the results an identifier
    gets in a run are those it would get if the timer never fired. *)
Theorem answers_ignore_sweeps (L : config) (identifier : string) (T : Z)
    (evs : list event) (m : gmap string entry) :
  stamped m →
  ordered T evs →
  answers L identifier evs m
  = answers L identifier (List.filter is_request evs) m.
Proof.
  intros Hst Hord.
  enough (∀ T swept kept,
            stamped swept → shadows L T swept kept → ordered T evs →
            answers L identifier evs swept
            = answers L identifier (List.filter is_request evs) kept)
    as Hgen.
  { apply (Hgen T m m); [done| |done]. intros other. by left. }
  clear T m Hst Hord.
  induction evs as [|ev evs IH]; intros T swept kept Hst Hsh Hord; [done|].
  destruct Hord as [Hle Hord].
  destruct ev as [other now|now];
    cbn [List.filter is_request answers time_of] in *.
  - destruct (shadows_isAllowed L T now other swept kept Hle Hsh)
      as [Hres Hsh'].
    pose proof (stamped_isAllowed L other now swept Hst) as Hst'.
    destruct (isAllowed L other now swept) as [swept' r1].
    destruct (isAllowed L other now kept) as [kept' r2].
    simpl in Hres, Hsh', Hst'. subst r2.
    rewrite (IH now swept' kept' Hst' Hsh' Hord).
    by case_bool_decide.
  - apply (IH now); [by apply stamped_cleanup| |done].
    by apply (shadows_cleanup L T now).
Qed.

Lemma answers_ignore_sweeps_sample :
  let L := {| windowMs := 60000; maxRequests := 2 |} in
  let evs := [Request "1.2.3.4" 0; Request "1.2.3.4" 10; Sweep 70000;
              Request "1.2.3.4" 70001; Request "1.2.3.4" 70002;
              Request "1.2.3.4" 70003] in
  answers L "1.2.3.4" evs ∅
  = answers L "1.2.3.4"
      [Request "1.2.3.4" 0; Request "1.2.3.4" 10;
       Request "1.2.3.4" 70001; Request "1.2.3.4" 70002;
       Request "1.2.3.4" 70003] ∅.
Proof.
  intros L evs.
  apply (answers_ignore_sweeps L "1.2.3.4" 0 evs ∅).
  - apply stamped_empty.
  - simpl. lia.
Defined.

(** Without the ordering of the clock readings X3 fails: a sweep whose
    clock reading is ahead of the following request's makes that request a
    first one. *)
Lemma sweep_seen_when_clock_runs_backwards :
  let L := {| windowMs := 60000; maxRequests := 1 |} in
  answers L "1.2.3.4"
    [Request "1.2.3.4" 0; Sweep 70000; Request "1.2.3.4" 10] ∅
  = [Allow 0; Allow 0]
  ∧ answers L "1.2.3.4" [Request "1.2.3.4" 0; Request "1.2.3.4" 10] ∅
    = [Allow 0; Deny 0 60 60000].
Proof. split; vm_compute; reflexivity. Qed.

(** X4. On a map the limiter can hold and with [maxRequests >= 1], the
    [remaining] that [isAllowed] reports is never negative and never more
    than [maxRequests - 1]. *)
Theorem remaining_in_range (L : config) (identifier : string) (now : Z)
    (m : gmap string entry) :
  1 <= maxRequests L →
  reachable L m →
  0 <= remaining (isAllowed L identifier now m).2 <= maxRequests L - 1.
Proof.
  intros Hcap Hreach.
  assert (Hb : bounded L m).
  { clear identifier now.
    induction Hreach as [|m identifier now _ IH|m now _ IH].
    - apply bounded_empty.
    - by apply bounded_isAllowed.
    - by apply bounded_cleanup. }
  unfold isAllowed.
  destruct (m !! identifier) as [data|] eqn:Hdata; simpl; [|lia].
  pose proof (Hb identifier data Hdata).
  repeat case_bool_decide; simpl; lia.
Qed.

Lemma remaining_in_range_sample :
  let L := {| windowMs := 60000; maxRequests := 10 |} in
  let m := run L [Request "1.2.3.4" 0; Request "1.2.3.4" 1; Sweep 2] ∅ in
  0 <= remaining (isAllowed L "1.2.3.4" 3 m).2 <= 9.
Proof.
  intros L m. apply (remaining_in_range L "1.2.3.4" 3 m).
  - simpl. lia.
  - apply reachable_run, reach_new.
Defined.

(** With [maxRequests = 0] the first request reports [remaining = -1]. *)
Lemma remaining_negative_without_cap :
  remaining
    (isAllowed {| windowMs := 60000; maxRequests := 0 |} "1.2.3.4" 0 ∅).2
  = -1.
Proof. reflexivity. Qed.

(** Requests inside the window of a standing entry: the one at index [i] is
    admitted exactly when the count has not reached the cap by then. *)
Lemma calls_admitted_until_cap (L : config) (identifier : string)
    (times : list Z) (m : gmap string entry) (data : entry) :
  m !! identifier = Some data →
  Forall (λ t, t - firstRequest data <= windowMs L) times →
  ∀ (i : nat) (r : result),
    (calls L identifier times m).2 !! i = Some r →
    allowed r = bool_decide (count data + Z.of_nat i < maxRequests L).
Proof.
  revert m data.
  induction times as [|t times IH]; intros m data Hdata Hin i r Hr.
  - done.
  - apply Forall_cons in Hin as [Ht Hin]. cbn [calls] in Hr.
    destruct (decide (count data >= maxRequests L)) as [Hfull|Hroom].
    + rewrite (isAllowed_denied L identifier t m data) in Hr by done.
      specialize (IH m data Hdata Hin).
      destruct (calls L identifier times m) as [final rs].
      destruct i as [|i]; simpl in *.
      * injection Hr as <-. simpl.
        by rewrite bool_decide_eq_false_2 by lia.
      * rewrite (IH i r Hr).
        by rewrite !bool_decide_eq_false_2 by lia.
    + rewrite (isAllowed_counted L identifier t m data) in Hr
        by (done || lia).
      specialize (IH (<[identifier := bump data]> m) (bump data)).
      destruct (calls L identifier times (<[identifier := bump data]> m))
        as [final rs].
      destruct i as [|i]; simpl in *.
      * injection Hr as <-. simpl.
        by rewrite bool_decide_eq_true_2 by lia.
      * rewrite (IH ltac:(by rewrite lookup_insert_eq) Hin i r Hr).
        apply bool_decide_ext. lia.
Qed.

(** X5. In one window, exactly the first [maxRequests] requests get
    through: of the requests for an identifier from the one that opens a
    window on, all within [windowMs] of it and however many, the one at
    index [i] (from 0) is admitted if [i < maxRequests] and denied
    otherwise. *)
Theorem window_admits_exactly_cap (L : config) (identifier : string)
    (start : Z) (times : list Z) (m : gmap string entry) (i : nat)
    (r : result) :
  1 <= maxRequests L →
  opens_window L m identifier start →
  Forall (λ t, t - start <= windowMs L) times →
  (calls L identifier (start :: times) m).2 !! i = Some r →
  allowed r = bool_decide (Z.of_nat i < maxRequests L).
Proof.
  intros Hcap Hopen Hin Hr. cbn [calls] in Hr.
  rewrite (isAllowed_opens L identifier start m Hopen) in Hr.
  pose proof (calls_admitted_until_cap L identifier times
                (<[identifier := fresh_entry start]> m)
                (fresh_entry start)) as Hrest.
  destruct (calls L identifier times
              (<[identifier := fresh_entry start]> m)) as [final rs].
  destruct i as [|i]; simpl in *.
  - injection Hr as <-. simpl. by rewrite bool_decide_eq_true_2 by lia.
  - rewrite (Hrest ltac:(by rewrite lookup_insert_eq) Hin i r Hr).
    apply bool_decide_ext. lia.
Qed.

Lemma window_admits_exactly_cap_sample :
  let L := {| windowMs := 60000; maxRequests := 2 |} in
  (calls L "1.2.3.4" [0; 5; 10; 60000] ∅).2 !! 3%nat
  = Some (Deny 0 0 60000)
  ∧ allowed (Deny 0 0 60000) = bool_decide (Z.of_nat 3 < maxRequests L).
Proof.
  intros L. split; [reflexivity|].
  apply (window_admits_exactly_cap L "1.2.3.4" 0 [5; 10; 60000] ∅ 3).
  - simpl. lia.
  - exact I.
  - repeat constructor; simpl; lia.
  - reflexivity.
Defined.

(** X6. Waiting longer than [Retry-After] is enough: if a request at [now]
    is denied with [retryAfter = r], then a request for the same identifier
    at any time later than [now + r] seconds (and with nothing else having
    touched the entry meanwhile) opens a new window and is admitted with
    [remaining = maxRequests - 1]. *)
Theorem retry_after_is_enough (L : config) (identifier : string)
    (now later : Z) (m : gmap string entry) (n r reset : Z) :
  (isAllowed L identifier now m).2 = Deny n r reset →
  later > now + 1000 * r →
  (isAllowed L identifier later (isAllowed L identifier now m).1).2
  = Allow (maxRequests L - 1)
  ∧ (isAllowed L identifier later (isAllowed L identifier now m).1).1
      !! identifier
    = Some {| count := 1; resetTime := later; firstRequest := later |}.
Proof.
  unfold isAllowed at 1 3 5.
  destruct (m !! identifier) as [data|] eqn:Hdata; [|done].
  repeat case_bool_decide; simpl; try done.
  intros [= <- <- <-] Hlater.
  pose proof (ceil_div_spec (windowMs L - (now - firstRequest data)) 1000
                ltac:(lia)) as [_ Hup].
  rewrite (isAllowed_expired L identifier later m data Hdata) by lia.
  simpl. by rewrite lookup_insert_eq.
Qed.

Lemma retry_after_is_enough_sample :
  let L := {| windowMs := 60000; maxRequests := 10 |} in
  let m := (calls L "1.2.3.4" (replicate 10 0) ∅).1 in
  (isAllowed L "1.2.3.4" 1500 m).2 = Deny 0 59 60000
  ∧ (isAllowed L "1.2.3.4" 60501 (isAllowed L "1.2.3.4" 1500 m).1).2
    = Allow 9.
Proof.
  intros L m.
  assert (Hdeny : (isAllowed L "1.2.3.4" 1500 m).2 = Deny 0 59 60000)
    by (vm_compute; reflexivity).
  split; [exact Hdeny|].
  apply (retry_after_is_enough L "1.2.3.4" 1500 60501 m 0 59 60000 Hdeny).
  lia.
Defined.

(** X7. Waiting exactly [Retry-After] can fall short: when the time left in
    the window is a whole number of seconds, a denied client that comes back
    after exactly [retryAfter] seconds arrives on the window's last
    millisecond and is denied again, this time with [retryAfter = 0]. *)
Theorem retry_after_exact_can_fail (L : config) (identifier : string)
    (now : Z) (m : gmap string entry) (data : entry) :
  m !! identifier = Some data →
  count data >= maxRequests L →
  now - firstRequest data <= windowMs L →
  (windowMs L - (now - firstRequest data)) mod 1000 = 0 →
  ∃ r, (isAllowed L identifier now m).2
       = Deny 0 r (firstRequest data + windowMs L)
       ∧ isAllowed L identifier (now + 1000 * r)
           (isAllowed L identifier now m).1
         = (m, Deny 0 0 (firstRequest data + windowMs L)).
Proof.
  intros Hdata Hfull Hlive Hwhole.
  exists (ceil_div (windowMs L - (now - firstRequest data)) 1000).
  rewrite (isAllowed_denied L identifier now m data) by done.
  split; [done|]. simpl.
  assert (Hexact :
    1000 * ceil_div (windowMs L - (now - firstRequest data)) 1000
    = windowMs L - (now - firstRequest data)).
  { unfold ceil_div.
    apply Z.mod_divide in Hwhole as [q Hq]; [|lia].
    rewrite Hq. replace (- (q * 1000)) with ((- q) * 1000) by lia.
    rewrite Z.div_mul by lia. lia. }
  rewrite (isAllowed_denied L identifier _ m data); [|done|lia|done].
  do 3 f_equal. rewrite Hexact.
  replace (windowMs L - (now + (windowMs L - (now - firstRequest data))
                         - firstRequest data)) with 0 by lia.
  reflexivity.
Qed.

Lemma retry_after_exact_can_fail_sample :
  let L := {| windowMs := 60000; maxRequests := 10 |} in
  let m := (calls L "1.2.3.4" (replicate 10 0) ∅).1 in
  ∃ r, (isAllowed L "1.2.3.4" 1000 m).2 = Deny 0 r 60000
       ∧ isAllowed L "1.2.3.4" (1000 + 1000 * r)
           (isAllowed L "1.2.3.4" 1000 m).1
         = (m, Deny 0 0 60000).
Proof.
  intros L m.
  apply (retry_after_exact_can_fail L "1.2.3.4" 1000 m
           {| count := 10; resetTime := 0; firstRequest := 0 |}).
  - vm_compute. reflexivity.
  - simpl. lia.
  - simpl. lia.
  - reflexivity.
Defined.

(** X8. With [windowMs >= 0], [isAllowed] never moves an identifier's
    window start backwards: the entry it leaves starts at the same time as
    the one it found, or, after an expiry, strictly later. *)
Theorem window_start_moves_forward (L : config) (identifier : string)
    (now : Z) (m : gmap string entry) (data data' : entry) :
  0 <= windowMs L →
  m !! identifier = Some data →
  (isAllowed L identifier now m).1 !! identifier = Some data' →
  firstRequest data' = firstRequest data
  ∨ (firstRequest data < firstRequest data'
     ∧ now - firstRequest data > windowMs L).
Proof.
  intros Hw Hdata. unfold isAllowed. rewrite Hdata.
  repeat case_bool_decide; simpl;
    rewrite ?lookup_insert_eq, ?Hdata; intros [= <-]; simpl.
  - right. lia.
  - by left.
  - by left.
Qed.

Lemma window_start_moves_forward_sample :
  let L := {| windowMs := 60000; maxRequests := 10 |} in
  let m := (isAllowed L "1.2.3.4" 0 ∅).1 in
  61000 = 0 ∨ (0 < 61000 ∧ 61000 - 0 > windowMs L).
Proof.
  intros L m.
  apply (window_start_moves_forward L "1.2.3.4" 61000 m
           {| count := 1; resetTime := 0; firstRequest := 0 |}
           {| count := 1; resetTime := 61000; firstRequest := 61000 |}).
  - simpl. lia.
  - reflexivity.
  - reflexivity.
Defined.

(** X9. A later sweep absorbs an earlier one: sweeping at [t1] and then at
    [t2 >= t1] leaves the same map as sweeping at [t2] alone; in particular
    sweeping twice at the same time changes nothing more. *)
Theorem later_sweep_absorbs_earlier (L : config) (t1 t2 : Z)
    (m : gmap string entry) :
  t1 <= t2 →
  cleanup L t2 (cleanup L t1 m) = cleanup L t2 m.
Proof.
  intros Hle. apply map_eq. intros identifier.
  rewrite !cleanup_lookup.
  destruct (m !! identifier) as [data|]; [|done].
  destruct (bool_decide (t1 - resetTime data > windowMs L)) eqn:H1.
  - apply bool_decide_eq_true_1 in H1.
    by rewrite bool_decide_eq_true_2 by lia.
  - done.
Qed.

Lemma later_sweep_absorbs_earlier_sample :
  let L := {| windowMs := 60000; maxRequests := 10 |} in
  let m := run L [Request "1.2.3.4" 0; Request "5.6.7.8" 30000] ∅ in
  cleanup L 100000 (cleanup L 70000 m) = cleanup L 100000 m.
Proof.
  intros L m. apply (later_sweep_absorbs_earlier L 70000 100000 m). lia.
Defined.

(** ** Further properties of the middlewares *)

Lemma or_else_nonempty (a : option string) (b : string) :
  b ≠ EmptyString → or_else a b ≠ EmptyString.
Proof.
  intros Hb. unfold or_else. destruct a as [s|]; [|done].
  by case_bool_decide.
Qed.

Lemma or_else_blank (a : option string) (b : string) :
  a = None ∨ a = Some EmptyString → or_else a b = b.
Proof. by intros [->| ->]. Qed.

Lemma before_comma_first (first rest : string) :
  (∀ c, In c (Stdlib.Strings.String.list_ascii_of_string first) →
        c ≠ ","%char) →
  before_comma (first +:+ "," +:+ rest) = first.
Proof.
  induction first as [|c first IH]; intros Hfree; [done|].
  simpl. destruct (Ascii.eqb c ",") eqn:Hc.
  - apply Ascii.eqb_eq in Hc. exfalso.
    apply (Hfree c); [by left|done].
  - f_equal. apply IH. intros c' Hin. apply Hfree. by right.
Qed.

(** X10. The identifier a middleware counts under is never the empty
    string.  It is [req.ip] whenever that is a non-empty string, and the
    literal ["unknown"] when all four sources are missing or empty, so that
    all clients without an address share one counter. *)
Theorem identifier_never_empty (req : request) :
  client_identifier req ≠ EmptyString
  ∧ (∀ s, ip req = Some s → s ≠ EmptyString → client_identifier req = s)
  ∧ ((ip req = None ∨ ip req = Some EmptyString) →
     (connection_remoteAddress req = None
      ∨ connection_remoteAddress req = Some EmptyString) →
     (socket_remoteAddress req = None
      ∨ socket_remoteAddress req = Some EmptyString) →
     (x_forwarded_for req = None
      ∨ x_forwarded_for req = Some EmptyString) →
     client_identifier req = "unknown"%string).
Proof.
  unfold client_identifier. split; [|split].
  - by repeat apply or_else_nonempty.
  - intros s Hip Hs. rewrite Hip. simpl.
    by rewrite bool_decide_eq_false_2.
  - intros Hip Hconn Hsock Hfwd.
    rewrite (or_else_blank (ip req)) by done.
    rewrite (or_else_blank (connection_remoteAddress req)) by done.
    rewrite (or_else_blank (socket_remoteAddress req)) by done.
    apply or_else_blank. by destruct Hfwd as [->| ->]; [left|right].
Qed.

Lemma identifier_never_empty_sample :
  client_identifier
    {| method := "GET"; ip := Some EmptyString;
       connection_remoteAddress := None; socket_remoteAddress := None;
       x_forwarded_for := Some EmptyString |}
  = "unknown"%string.
Proof.
  apply (identifier_never_empty
           {| method := "GET"; ip := Some EmptyString;
              connection_remoteAddress := None;
              socket_remoteAddress := None;
              x_forwarded_for := Some EmptyString |}); simpl; auto.
Defined.

(** X11. When the request carries no address of its own, the first entry of
    a comma-separated [x-forwarded-for] header is the identifier, taken as
    it stands (nothing is trimmed). *)
Theorem forwarded_first_hop_identifies (req : request) (first rest : string) :
  (ip req = None ∨ ip req = Some EmptyString) →
  (connection_remoteAddress req = None
   ∨ connection_remoteAddress req = Some EmptyString) →
  (socket_remoteAddress req = None
   ∨ socket_remoteAddress req = Some EmptyString) →
  x_forwarded_for req = Some (first +:+ "," +:+ rest)%string →
  first ≠ EmptyString →
  (∀ c, In c (Stdlib.Strings.String.list_ascii_of_string first) →
        c ≠ ","%char) →
  client_identifier req = first.
Proof.
  intros Hip Hconn Hsock Hfwd Hfirst Hfree. unfold client_identifier.
  rewrite (or_else_blank (ip req)) by done.
  rewrite (or_else_blank (connection_remoteAddress req)) by done.
  rewrite (or_else_blank (socket_remoteAddress req)) by done.
  rewrite Hfwd. simpl fmap. unfold or_else.
  rewrite before_comma_first by done.
  by rewrite bool_decide_eq_false_2.
Qed.

Lemma forwarded_first_hop_identifies_sample :
  client_identifier
    {| method := "POST"; ip := None;
       connection_remoteAddress := None; socket_remoteAddress := None;
       x_forwarded_for := Some "9.9.9.9, 10.0.0.1"%string |}
  = "9.9.9.9"%string.
Proof.
  apply (forwarded_first_hop_identifies
           {| method := "POST"; ip := None;
              connection_remoteAddress := None;
              socket_remoteAddress := None;
              x_forwarded_for := Some "9.9.9.9, 10.0.0.1"%string |}
           "9.9.9.9" " 10.0.0.1").
  - by left.
  - by left.
  - by left.
  - reflexivity.
  - discriminate.
  - intros c Hin. simpl in Hin.
    repeat (destruct Hin as [<-|Hin]; [discriminate|]). destruct Hin.
Defined.

(** *** Requests through a middleware *)

(** The three middlewares share one shape: when they apply to a request,
    they call [isAllowed] on their instance and answer according to the
    result. *)
Section Quota.
Variable mw : request → Z → gmap positive (gmap string entry)
              → gmap positive (gmap string entry) * response.
Variable this : limiter.
Variable applies : request → Prop.
Variable respond : result → response.
Variable message : string.

Hypothesis mw_calls : ∀ req now h,
  applies req →
  mw req now h
  = (<[requests this :=
         (isAllowed (settings this) (client_identifier req) now
                    (h !!! requests this)).1]> h,
     respond (isAllowed (settings this) (client_identifier req) now
                        (h !!! requests this)).2).

Hypothesis respond_outcome : ∀ r,
  outcome (respond r) = if allowed r then Next else NextError message 429.

Lemma serve_calls (identifier : string) (reqs : list (request * Z))
    (h : gmap positive (gmap string entry)) :
  Forall (λ rt, applies rt.1 ∧ client_identifier rt.1 = identifier) reqs →
  (serve mw reqs h).2
  = respond <$> (calls (settings this) identifier (snd <$> reqs)
                       (h !!! requests this)).2.
Proof.
  revert h. induction reqs as [|[req now] reqs IH]; intros h Hreqs; [done|].
  apply Forall_cons in Hreqs as [[Happ Hid] Hreqs]. simpl in Happ, Hid.
  cbn [serve fmap list_fmap snd calls].
  rewrite (mw_calls req now h Happ), Hid.
  specialize (IH (<[requests this :=
                     (isAllowed (settings this) identifier now
                                (h !!! requests this)).1]> h) Hreqs).
  rewrite lookup_total_insert_eq in IH.
  destruct (isAllowed (settings this) identifier now (h !!! requests this))
    as [m r].
  simpl in *.
  destruct (serve mw reqs (<[requests this := m]> h)) as [h'' ress].
  destruct (calls (settings this) identifier (snd <$> reqs) m)
    as [final rs].
  simpl in *. by rewrite IH.
Qed.

Lemma serve_quota (req0 : request) (start : Z) (rest : list (request * Z))
    (h : gmap positive (gmap string entry)) (i : nat) (res : response) :
  1 <= maxRequests (settings this) →
  applies req0 →
  opens_window (settings this) (h !!! requests this)
               (client_identifier req0) start →
  Forall (λ rt, applies rt.1
                ∧ client_identifier rt.1 = client_identifier req0
                ∧ rt.2 - start <= windowMs (settings this)) rest →
  (serve mw ((req0, start) :: rest) h).2 !! i = Some res →
  outcome res
  = if bool_decide (Z.of_nat i < maxRequests (settings this))
    then Next else NextError message 429.
Proof.
  intros Hcap Happ Hopen Hrest Hres.
  rewrite (serve_calls (client_identifier req0)) in Hres.
  - apply list_lookup_fmap_Some_1 in Hres as (r & -> & Hr).
    cbn [fmap list_fmap snd calls] in Hr.
    rewrite respond_outcome.
    assert (Htimes : Forall (λ t, t - start <= windowMs (settings this))
                            (snd <$> rest)).
    { apply Forall_fmap. eapply Forall_impl; [exact Hrest|].
      intros [req t] (_ & _ & Ht). exact Ht. }
    rewrite (isAllowed_opens (settings this) (client_identifier req0) start
               (h !!! requests this) Hopen) in Hr.
    pose proof (calls_admitted_until_cap (settings this)
                  (client_identifier req0) (snd <$> rest)
                  (<[client_identifier req0 := fresh_entry start]>
                     (h !!! requests this))
                  (fresh_entry start)) as Hlater.
    destruct (calls (settings this) (client_identifier req0) (snd <$> rest)
                (<[client_identifier req0 := fresh_entry start]>
                   (h !!! requests this))) as [final rs].
    destruct i as [|i]; simpl in Hr.
    + injection Hr as <-. simpl. by rewrite bool_decide_eq_true_2 by lia.
    + rewrite (Hlater ltac:(by rewrite lookup_insert_eq) Htimes i r Hr).
      simpl count.
      by rewrite (bool_decide_ext (1 + Z.of_nat i < _)
                    (Z.of_nat (S i) < maxRequests (settings this)))
        by lia.
  - apply Forall_cons. split; [done|].
    eapply Forall_impl; [exact Hrest|]. intros rt (Ha & Hid & _). done.
Qed.
End Quota.

Lemma rateLimiter_calls (req : request) (now : Z)
    (h : gmap positive (gmap string entry)) :
  rateLimiter req now h
  = (<[requests generalLimiter :=
         (isAllowed (settings generalLimiter) (client_identifier req) now
                    (h !!! requests generalLimiter)).1]> h,
     (λ result,
        let set3 :=
          [ ("X-RateLimit-Limit"%string,
             maxRequests (settings generalLimiter));
            ("X-RateLimit-Remaining"%string, remaining result);
            ("X-RateLimit-Window"%string,
             ceil_div (windowMs (settings generalLimiter)) 1000) ] in
        match result with
        | Deny _ retry _ =>
            {| headers := set3 ++ [("Retry-After"%string, retry)];
               outcome :=
                 NextError "Too many requests. Please try again later."
                           429 |}
        | Allow _ => {| headers := set3; outcome := Next |}
        end)
       (isAllowed (settings generalLimiter) (client_identifier req) now
                  (h !!! requests generalLimiter)).2).
Proof.
  unfold rateLimiter, isAllowed_on.
  destruct (isAllowed (settings generalLimiter) (client_identifier req) now
              (h !!! requests generalLimiter)) as [m [n|n retry reset]];
    reflexivity.
Qed.

Lemma strictRateLimiter_calls (req : request) (now : Z)
    (h : gmap positive (gmap string entry)) :
  method req ∈ ["POST"; "PUT"; "PATCH"; "DELETE"]%string →
  strictRateLimiter req now h
  = (<[requests strictLimiter :=
         (isAllowed (settings strictLimiter) (client_identifier req) now
                    (h !!! requests strictLimiter)).1]> h,
     (λ result,
        let set3 :=
          [ ("X-RateLimit-Strict-Limit"%string,
             maxRequests (settings strictLimiter));
            ("X-RateLimit-Strict-Remaining"%string, remaining result);
            ("X-RateLimit-Strict-Window"%string,
             ceil_div (windowMs (settings strictLimiter)) 1000) ] in
        match result with
        | Deny _ retry _ =>
            {| headers := set3 ++ [("Retry-After"%string, retry)];
               outcome :=
                 NextError "Too many write requests. Please slow down."
                           429 |}
        | Allow _ => {| headers := set3; outcome := Next |}
        end)
       (isAllowed (settings strictLimiter) (client_identifier req) now
                  (h !!! requests strictLimiter)).2).
Proof.
  intros Hwrite. unfold strictRateLimiter, isAllowed_on.
  rewrite bool_decide_eq_true_2 by done. cbn [negb].
  destruct (isAllowed (settings strictLimiter) (client_identifier req) now
              (h !!! requests strictLimiter)) as [m [n|n retry reset]];
    reflexivity.
Qed.

Lemma custom_middleware_calls (limiter0 : limiter) (w cap : Z)
    (msg : option string) (req : request) (now : Z)
    (h : gmap positive (gmap string entry)) :
  custom_middleware limiter0 w cap msg req now h
  = (<[requests limiter0 :=
         (isAllowed (settings limiter0) (client_identifier req) now
                    (h !!! requests limiter0)).1]> h,
     (λ result,
        let set3 :=
          [ ("X-RateLimit-Limit"%string, cap);
            ("X-RateLimit-Remaining"%string, remaining result);
            ("X-RateLimit-Window"%string, ceil_div w 1000) ] in
        match result with
        | Deny _ retry _ =>
            {| headers := set3 ++ [("Retry-After"%string, retry)];
               outcome :=
                 NextError (or_else msg "Rate limit exceeded") 429 |}
        | Allow _ => {| headers := set3; outcome := Next |}
        end)
       (isAllowed (settings limiter0) (client_identifier req) now
                  (h !!! requests limiter0)).2).
Proof.
  unfold custom_middleware, isAllowed_on.
  destruct (isAllowed (settings limiter0) (client_identifier req) now
              (h !!! requests limiter0)) as [m [n|n retry reset]];
    reflexivity.
Qed.

(** X12. The general middleware lets exactly 100 requests per client
    through in a window: of the requests of one client from the one that
    opens its window on, all within 15 minutes of it, the one at index [i]
    (from 0) goes on to [next()] if [i < 100] and is answered with the 429
    error otherwise. *)
Theorem general_quota (req0 : request) (start : Z)
    (rest : list (request * Z)) (h : gmap positive (gmap string entry))
    (i : nat) (res : response) :
  opens_window (settings generalLimiter) (h !!! requests generalLimiter)
               (client_identifier req0) start →
  Forall (λ rt, client_identifier rt.1 = client_identifier req0
                ∧ rt.2 - start <= 15 * 60 * 1000) rest →
  (serve rateLimiter ((req0, start) :: rest) h).2 !! i = Some res →
  outcome res
  = if bool_decide (i < 100)%nat then Next
    else NextError "Too many requests. Please try again later." 429.
Proof.
  intros Hopen Hrest Hres.
  rewrite (serve_quota rateLimiter generalLimiter (λ _, True) _
             "Too many requests. Please try again later."
             (λ req now h _, rateLimiter_calls req now h)
             ltac:(by intros [n|n retry reset])
             req0 start rest h i res); [|done|done|done| |done].
  - rewrite (bool_decide_ext _ (i < 100)%nat); [done|].
    change (maxRequests _) with 100. lia.
  - eapply Forall_impl; [exact Hrest|]. intros rt [Hid Ht]. done.
Qed.

Lemma general_quota_sample :
  let req := {| method := "GET"; ip := Some "1.2.3.4"%string;
                connection_remoteAddress := None;
                socket_remoteAddress := None; x_forwarded_for := None |} in
  outcome
    (default {| headers := []; outcome := Next |}
       ((serve rateLimiter (replicate 101 (req, 0)) boot_heap).2
          !! 100%nat))
  = NextError "Too many requests. Please try again later." 429.
Proof.
  intros req.
  destruct ((serve rateLimiter (replicate 101 (req, 0)) boot_heap).2
              !! 100%nat) as [res|] eqn:Hres;
    [|vm_compute in Hres; discriminate Hres].
  simpl.
  apply (general_quota req 0 (replicate 100 (req, 0)) boot_heap 100 res).
  - vm_compute. exact I.
  - apply Forall_replicate. split; [reflexivity|simpl; lia].
  - exact Hres.
Defined.

(** X13. The strict middleware lets exactly 10 writes per client through
    in a window: of the POST, PUT, PATCH and DELETE requests of one client
    from the one that opens its window on, all within one minute of it, the
    one at index [i] (from 0) goes on to [next()] if [i < 10] and is
    answered with the 429 error otherwise. *)
Theorem strict_quota (req0 : request) (start : Z)
    (rest : list (request * Z)) (h : gmap positive (gmap string entry))
    (i : nat) (res : response) :
  method req0 ∈ ["POST"; "PUT"; "PATCH"; "DELETE"]%string →
  opens_window (settings strictLimiter) (h !!! requests strictLimiter)
               (client_identifier req0) start →
  Forall (λ rt, method rt.1 ∈ ["POST"; "PUT"; "PATCH"; "DELETE"]%string
                ∧ client_identifier rt.1 = client_identifier req0
                ∧ rt.2 - start <= 60 * 1000) rest →
  (serve strictRateLimiter ((req0, start) :: rest) h).2 !! i = Some res →
  outcome res
  = if bool_decide (i < 10)%nat then Next
    else NextError "Too many write requests. Please slow down." 429.
Proof.
  intros Hwrite Hopen Hrest Hres.
  rewrite (serve_quota strictRateLimiter strictLimiter
             (λ req, method req ∈ ["POST"; "PUT"; "PATCH"; "DELETE"]%string)
             _ "Too many write requests. Please slow down."
             strictRateLimiter_calls
             ltac:(by intros [n|n retry reset])
             req0 start rest h i res); [|done|done|done|done|done].
  rewrite (bool_decide_ext _ (i < 10)%nat); [done|].
  change (maxRequests _) with 10. lia.
Qed.

Lemma strict_quota_sample :
  let req := {| method := "DELETE"; ip := Some "1.2.3.4"%string;
                connection_remoteAddress := None;
                socket_remoteAddress := None; x_forwarded_for := None |} in
  outcome
    (default {| headers := []; outcome := Next |}
       ((serve strictRateLimiter (replicate 11 (req, 0)) boot_heap).2
          !! 10%nat))
  = NextError "Too many write requests. Please slow down." 429.
Proof.
  intros req.
  destruct ((serve strictRateLimiter (replicate 11 (req, 0)) boot_heap).2
              !! 10%nat) as [res|] eqn:Hres; [|discriminate Hres].
  simpl.
  apply (strict_quota req 0 (replicate 10 (req, 0)) boot_heap 10 res).
  - apply list_elem_of_In. simpl. tauto.
  - vm_compute. exact I.
  - apply Forall_replicate. split; [|split].
    + apply list_elem_of_In. simpl. tauto.
    + reflexivity.
    + simpl. lia.
  - exact Hres.
Defined.

(** X14. A middleware made by [createRateLimiter(windowMs, maxRequests,
    message)] with [maxRequests >= 1] starts with an empty map and lets
    exactly [maxRequests] requests per client through in a window; the
    others are answered with the 429 error, whose text is [message], or
    ["Rate limit exceeded"] when [message] is missing or empty. *)
Theorem custom_quota (w cap : Z) (msg : option string)
    (h : gmap positive (gmap string entry)) (req0 : request) (start : Z)
    (rest : list (request * Z)) (i : nat) (res : response) :
  1 <= cap →
  Forall (λ rt, client_identifier rt.1 = client_identifier req0
                ∧ rt.2 - start <= w) rest →
  (serve (createRateLimiter w cap msg h).1 ((req0, start) :: rest)
         (createRateLimiter w cap msg h).2).2 !! i = Some res →
  outcome res
  = if bool_decide (Z.of_nat i < cap) then Next
    else NextError (or_else msg "Rate limit exceeded") 429.
Proof.
  intros Hcap Hrest Hres.
  apply (serve_quota
           (custom_middleware (new_RateLimiter w cap h).1 w cap msg)
           (new_RateLimiter w cap h).1 (λ _, True) _
           (or_else msg "Rate limit exceeded")
           (λ req now h' _,
              custom_middleware_calls (new_RateLimiter w cap h).1
                w cap msg req now h')
           ltac:(by intros [n|n retry reset])
           req0 start rest (new_RateLimiter w cap h).2 i res);
    [done|done| | |done].
  - unfold opens_window. simpl.
    by rewrite lookup_total_insert_eq, lookup_empty.
  - eapply Forall_impl; [exact Hrest|]. intros rt [Hid Ht]. done.
Qed.

Lemma custom_quota_sample :
  let req := {| method := "GET"; ip := Some "1.2.3.4"%string;
                connection_remoteAddress := None;
                socket_remoteAddress := None; x_forwarded_for := None |} in
  outcome
    (default {| headers := []; outcome := Next |}
       ((serve (createRateLimiter 1000 2 None boot_heap).1
               [(req, 0); (req, 10); (req, 20)]
               (createRateLimiter 1000 2 None boot_heap).2).2 !! 2%nat))
  = NextError "Rate limit exceeded" 429.
Proof.
  intros req.
  destruct ((serve (createRateLimiter 1000 2 None boot_heap).1
               [(req, 0); (req, 10); (req, 20)]
               (createRateLimiter 1000 2 None boot_heap).2).2 !! 2%nat)
    as [res|] eqn:Hres; [|discriminate Hres].
  simpl.
  apply (custom_quota 1000 2 None boot_heap req 0 [(req, 10); (req, 20)]
           2 res).
  - lia.
  - repeat constructor; simpl; lia.
  - exact Hres.
Defined.

Lemma limiters_apart : requests generalLimiter ≠ requests strictLimiter.
Proof. vm_compute. discriminate. Qed.

(** X15. The general and the strict middleware do not see each other:
    applied to a heap in either order they leave the same heap, and each
    answers what it would have answered had the other not run. *)
Theorem general_and_strict_commute (req1 req2 : request) (t1 t2 : Z)
    (h : gmap positive (gmap string entry)) :
  (strictRateLimiter req2 t2 (rateLimiter req1 t1 h).1).1
  = (rateLimiter req1 t1 (strictRateLimiter req2 t2 h).1).1
  ∧ (strictRateLimiter req2 t2 (rateLimiter req1 t1 h).1).2
    = (strictRateLimiter req2 t2 h).2
  ∧ (rateLimiter req1 t1 (strictRateLimiter req2 t2 h).1).2
    = (rateLimiter req1 t1 h).2.
Proof.
  pose proof limiters_apart as Hne.
  destruct (decide (method req2 ∈ ["POST"; "PUT"; "PATCH"; "DELETE"]%string))
    as [Hwrite|Hread].
  - rewrite !strictRateLimiter_calls by done.
    rewrite !rateLimiter_calls. cbn [fst snd].
    rewrite !lookup_total_insert_ne by done.
    split; [|done]. by apply insert_insert_ne.
  - assert (Hskip : ∀ h', strictRateLimiter req2 t2 h'
                          = (h', {| headers := []; outcome := Next |})).
    { intros h'. unfold strictRateLimiter.
      by rewrite bool_decide_eq_false_2. }
    by rewrite !Hskip.
Qed.

(** X16. [createRateLimiter] leaves every map that existed before as it
    was, and the middleware it returns never writes to one of them, whatever
    heap it later runs on. *)
Theorem custom_limiter_is_separate (w cap : Z) (msg : option string)
    (h h' : gmap positive (gmap string entry)) (req : request) (now : Z)
    (r : positive) :
  r ∈ dom h →
  (createRateLimiter w cap msg h).2 !! r = h !! r
  ∧ ((createRateLimiter w cap msg h).1 req now h').1 !! r = h' !! r.
Proof.
  intros Hr.
  assert (Hne : requests (new_RateLimiter w cap h).1 ≠ r).
  { intros Heq. apply (new_RateLimiter_fresh w cap h).
    by rewrite Heq. }
  split.
  - simpl. by rewrite lookup_insert_ne.
  - cbn [createRateLimiter new_RateLimiter fst].
    rewrite custom_middleware_calls. simpl.
    by rewrite lookup_insert_ne.
Qed.

Lemma custom_limiter_is_separate_sample :
  let req := {| method := "GET"; ip := Some "1.2.3.4"%string;
                connection_remoteAddress := None;
                socket_remoteAddress := None; x_forwarded_for := None |} in
  let h := (rateLimiter req 0 boot_heap).1 in
  (createRateLimiter 1000 2 None h).2 !! requests generalLimiter
  = h !! requests generalLimiter
  ∧ ((createRateLimiter 1000 2 None h).1 req 5
       (createRateLimiter 1000 2 None h).2).1 !! requests generalLimiter
    = (createRateLimiter 1000 2 None h).2 !! requests generalLimiter.
Proof.
  intros req h.
  apply (custom_limiter_is_separate 1000 2 None h
           (createRateLimiter 1000 2 None h).2 req 5
           (requests generalLimiter)).
  apply elem_of_dom. vm_compute. eauto.
Defined.

(** ** The validators *)

Import Validation.

Lemma capital_not_white (c : N) : is_capital c = true → is_white c = false.
Proof.
  unfold is_capital, is_white. intros Hc.
  apply andb_true_iff in Hc as [Hlo Hhi].
  apply N.leb_le in Hlo. apply N.leb_le in Hhi.
  apply orb_false_iff. split.
  - apply bool_decide_eq_false_2. intros Hin.
    repeat (apply elem_of_cons in Hin as [->|Hin]; [lia|]).
    by apply elem_of_nil in Hin.
  - apply andb_false_iff. left. apply N.leb_gt. lia.
Qed.

Lemma trimStart_white (pad s : list N) :
  forallb is_white pad = true → trimStart (pad ++ s) = trimStart s.
Proof.
  induction pad as [|c pad IH]; [done|]. simpl.
  intros [Hc Hpad]%andb_true_iff. rewrite Hc. by apply IH.
Qed.

Lemma trimStart_all_white (s : list N) :
  forallb is_white s = true → trimStart s = [].
Proof.
  intros Hs. rewrite <- (app_nil_r s). by rewrite trimStart_white.
Qed.

Lemma trimStart_app (s pad : list N) :
  forallb is_white s = false → trimStart (s ++ pad) = trimStart s ++ pad.
Proof.
  induction s as [|c s IH]; [done|]. simpl.
  destruct (is_white c) eqn:Hc; [|done]. simpl. exact IH.
Qed.

Lemma trimEnd_white (s pad : list N) :
  forallb is_white pad = true → trimEnd (s ++ pad) = trimEnd s.
Proof.
  intros Hpad. unfold trimEnd. rewrite rev_app_distr.
  rewrite trimStart_white; [done|].
  rewrite forallb_forall in *. intros c Hc. apply Hpad.
  by apply in_rev.
Qed.

Lemma trimStart_fixed (s : list N) :
  (∀ c, head s = Some c → is_white c = false) → trimStart s = s.
Proof.
  destruct s as [|c s]; [done|]. simpl. intros Hc.
  by rewrite (Hc c eq_refl).
Qed.

(** White space around a string does not change what [trim] returns. *)
Lemma trim_padded (pad1 s pad2 : list N) :
  forallb is_white pad1 = true →
  forallb is_white pad2 = true →
  trim (pad1 ++ s ++ pad2) = trim s.
Proof.
  intros Hpad1 Hpad2. unfold trim. rewrite trimStart_white by done.
  destruct (forallb is_white s) eqn:Hs.
  - rewrite (trimStart_all_white s Hs).
    rewrite trimStart_all_white; [done|].
    rewrite forallb_app. by rewrite Hs, Hpad2.
  - rewrite trimStart_app by done. by apply trimEnd_white.
Qed.

(** A string of capital letters is its own [trim]. *)
Lemma trim_capitals (t : list N) :
  forallb is_capital t = true → trim t = t.
Proof.
  intros Ht. unfold trim, trimEnd.
  assert (Hhead : ∀ u c, forallb is_capital u = true →
                         head u = Some c → is_white c = false).
  { intros [|c' u] c Hu [= <-]. simpl in Hu.
    apply andb_true_iff in Hu as [Hc _]. by apply capital_not_white. }
  rewrite (trimStart_fixed t) by eauto.
  rewrite (trimStart_fixed (rev t)); [by apply rev_involutive|].
  intros c Hc. apply (Hhead (rev t) c); [|done].
  rewrite forallb_forall in *. intros c' Hc'. apply Ht.
  by apply in_rev.
Qed.

Section ValidatorFacts.
Variable toUpperCase : list N → list N.

Lemma validateStockSymbol_Valid (v : value) (t : list N) :
  validateStockSymbol toUpperCase v = Valid t →
  ∃ s, v = Str s ∧ s ≠ [] ∧ t = toUpperCase (trim s)
       ∧ capitals_1_5 t = true ∧ t ∉ forbiddenSymbols.
Proof.
  unfold validateStockSymbol.
  destruct v as [|s|truthy]; simpl; [done| |by destruct truthy].
  case_bool_decide as Hs; [done|].
  destruct (_ || _); [done|].
  destruct (capitals_1_5 (toUpperCase (trim s))) eqn:Hcap; [|done].
  simpl. case_bool_decide as Hforb; [done|].
  intros [= <-]. by exists s.
Qed.

Lemma validateStockSymbol_accepts (s : list N) :
  s ≠ [] →
  capitals_1_5 (toUpperCase (trim s)) = true →
  toUpperCase (trim s) ∉ forbiddenSymbols →
  validateStockSymbol toUpperCase (Str s) = Valid (toUpperCase (trim s)).
Proof.
  intros Hs Hcap Hforb. unfold validateStockSymbol. simpl.
  rewrite bool_decide_eq_false_2 by done.
  rewrite Hcap. unfold capitals_1_5 in Hcap.
  apply andb_true_iff in Hcap as [Hcap Hhi].
  apply andb_true_iff in Hcap as [_ Hlo].
  apply Nat.leb_le in Hlo. apply Nat.leb_le in Hhi.
  replace (length (toUpperCase (trim s)) <? 1)%nat with false
    by (symmetry; apply Nat.ltb_ge; lia).
  replace (5 <? length (toUpperCase (trim s)))%nat with false
    by (symmetry; apply Nat.ltb_ge; lia).
  simpl. by rewrite bool_decide_eq_false_2.
Qed.
End ValidatorFacts.

(** X17. What [validateStockSymbol] accepts is in canonical form: the
    returned symbol consists of one to five capital letters A-Z and is none
    of NULL, ADMIN, TEST, DEBUG; and, [toUpperCase] leaving strings of
    capital letters as they are, validating the returned symbol again
    returns it unchanged. *)
Theorem accepted_symbol_is_canonical (toUpperCase : list N → list N)
    (v : value) (t : list N) :
  (∀ s, forallb is_capital s = true → toUpperCase s = s) →
  validateStockSymbol toUpperCase v = Valid t →
  (1 <= length t <= 5)%nat
  ∧ Forall (λ c, 65 <= c <= 90)%N t
  ∧ (t ∉ [units "NULL"; units "ADMIN"; units "TEST"; units "DEBUG"])
  ∧ validateStockSymbol toUpperCase (Str t) = Valid t.
Proof.
  intros Hupper Hvalid.
  apply validateStockSymbol_Valid in Hvalid
    as (s & -> & Hs & -> & Hcap & Hforb).
  set (t := toUpperCase (trim s)) in *.
  pose proof Hcap as Hcap'. unfold capitals_1_5 in Hcap'.
  apply andb_true_iff in Hcap' as [Hcap' Hhi].
  apply andb_true_iff in Hcap' as [Hall Hlo].
  apply Nat.leb_le in Hlo. apply Nat.leb_le in Hhi.
  split; [lia|]. split; [|split; [exact Hforb|]].
  - apply Forall_forall. intros c Hc.
    rewrite forallb_forall in Hall.
    apply list_elem_of_In, Hall in Hc. unfold is_capital in Hc.
    apply andb_true_iff in Hc as [H1 H2].
    apply N.leb_le in H1. apply N.leb_le in H2. lia.
  - assert (Hfix : toUpperCase (trim t) = t).
    { rewrite (trim_capitals t Hall). by apply Hupper. }
    rewrite <- Hfix at 2.
    apply validateStockSymbol_accepts; rewrite ?Hfix; try done.
    intros ->. simpl in Hlo. lia.
Qed.

Lemma ascii_upper_capitals (s : list N) :
  forallb is_capital s = true → ascii_upper s = s.
Proof.
  induction s as [|c s IH]; [done|]. simpl.
  intros [Hc Hs]%andb_true_iff. rewrite IH by done. f_equal.
  unfold is_capital in Hc. apply andb_true_iff in Hc as [H1 H2].
  apply N.leb_le in H1. apply N.leb_le in H2.
  replace (97 <=? c)%N with false by (symmetry; apply N.leb_gt; lia).
  done.
Qed.

Lemma accepted_symbol_is_canonical_sample :
  validateStockSymbol ascii_upper (Str (units " aapl ")) = Valid (units "AAPL")
  ∧ validateStockSymbol ascii_upper (Str (units "AAPL")) = Valid (units "AAPL").
Proof.
  split; [reflexivity|].
  apply (accepted_symbol_is_canonical ascii_upper (Str (units " aapl "))
           (units "AAPL") ascii_upper_capitals).
  reflexivity.
Defined.

(** X18. White space around a symbol never changes the verdict of
    [validateStockSymbol]: a non-empty string and the same string with any
    white space put before and after it get the same result. *)
Theorem padding_does_not_matter (toUpperCase : list N → list N)
    (pad1 s pad2 : list N) :
  s ≠ [] →
  forallb is_white pad1 = true →
  forallb is_white pad2 = true →
  validateStockSymbol toUpperCase (Str (pad1 ++ s ++ pad2))
  = validateStockSymbol toUpperCase (Str s).
Proof.
  intros Hs Hpad1 Hpad2. unfold validateStockSymbol. simpl.
  rewrite trim_padded by done.
  assert (Hne : pad1 ++ s ++ pad2 ≠ []).
  { intros Happ. apply app_eq_nil in Happ as [_ Happ].
    by apply app_eq_nil in Happ as [? _]. }
  by rewrite (bool_decide_eq_false_2 _ Hne), (bool_decide_eq_false_2 _ Hs).
Qed.

Lemma padding_does_not_matter_sample :
  validateStockSymbol ascii_upper (Str (units "  msft" ++ [9; 160; 10]%N))
  = validateStockSymbol ascii_upper (Str (units "msft")).
Proof.
  apply (padding_does_not_matter ascii_upper (units "  ") (units "msft")
           [9; 160; 10]%N).
  - discriminate.
  - reflexivity.
  - reflexivity.
Defined.

(** X19. [validateStockSymbolParam] goes on to [next()] exactly when
    [validateStockSymbol] accepts the parameter; every error it passes on
    has status 400, and a missing or empty parameter is reported by the
    middleware's own message, never by the validator's "Stock symbol is
    required". *)
Theorem param_middleware_follows_validator (toUpperCase : list N → list N)
    (v : value) :
  (validateStockSymbolParam toUpperCase v = Next
   ↔ ∃ t, validateStockSymbol toUpperCase v = Valid t)
  ∧ (∀ message code,
       validateStockSymbolParam toUpperCase v = NextError message code →
       code = 400 ∧ message ≠ "Stock symbol is required"%string)
  ∧ (falsy v = true →
     validateStockSymbolParam toUpperCase v
     = NextError "Stock symbol parameter is required" 400).
Proof.
  unfold validateStockSymbolParam. split; [|split].
  - destruct (falsy v) eqn:Hv.
    + split; [done|]. intros [t Ht]. unfold validateStockSymbol in Ht.
      by rewrite Hv in Ht.
    + destruct (validateStockSymbol toUpperCase v) as [msg|t];
        split; try done; eauto. by intros [t Ht].
  - intros message code. destruct (falsy v) eqn:Hv.
    + by intros [= <- <-].
    + unfold validateStockSymbol. rewrite Hv.
      destruct v as [|s|truthy]; [by intros [= <- <-]| |by intros [= <- <-]].
      destruct (_ || _); [by intros [= <- <-]|].
      destruct (negb _); [by intros [= <- <-]|].
      case_bool_decide; [by intros [= <- <-]|done].
  - by intros ->.
Qed.

Lemma param_middleware_follows_validator_sample :
  validateStockSymbolParam ascii_upper (Str (units "tsla")) = Next
  ∧ validateStockSymbolParam ascii_upper (Str [])
    = NextError "Stock symbol parameter is required" 400.
Proof.
  destruct (param_middleware_follows_validator ascii_upper
              (Str (units "tsla"))) as (Hnext & _ & _).
  destruct (param_middleware_follows_validator ascii_upper (Str []))
    as (_ & _ & Hempty).
  split.
  - apply Hnext. by exists (units "TSLA").
  - by apply Hempty.
Defined.

Lemma drop_leading_minus_spec (s : list N) :
  drop_leading_minus s
  = if bool_decide (head s = Some 45%N) then tail s else s.
Proof.
  destruct s as [|c rest]; [done|].
  destruct c as [|p]; [done|].
  do 6 (destruct p as [p|p|]; try done).
Qed.

Lemma validateQueryParams_sort (page limit : option (list N))
    (sort : list N) :
  validateQueryParams page limit None = Next →
  validateQueryParams page limit (Some sort)
  = if bool_decide (drop_leading_minus sort ∈ allowedSortFields)
    then Next else NextError "Invalid sort field" 400.
Proof.
  unfold validateQueryParams. cbv zeta.
  destruct page as [page|];
    [destruct (parseInt page) as [n|];
       [destruct (n <? 1); [done|]; destruct (1000 <? n); [done|]|done]|];
    (destruct limit as [limit|];
       [destruct (parseInt limit) as [k|];
          [destruct ((k <? 1) || (100 <? k)); [done|]|done]|]);
    intros _; by destruct (bool_decide _).
Qed.

Lemma sort_field_with_minus (sort : list N) :
  drop_leading_minus sort ∈ allowedSortFields
  ↔ sort ∈ [units "symbol"; units "name"; units "addedAt";
            units "lastUpdated"; units "-symbol"; units "-name";
            units "-addedAt"; units "-lastUpdated"].
Proof.
  rewrite drop_leading_minus_spec. unfold allowedSortFields.
  case_bool_decide as Hminus.
  - destruct sort as [|c rest]; [done|]. injection Hminus as ->.
    cbn [tail]. rewrite !elem_of_cons, !elem_of_nil. split.
    + intros [->|[->|[->|[->|[]]]]]; vm_compute; tauto.
    + intros [H|[H|[H|[H|[H|[H|[H|[H|[]]]]]]]]];
        try discriminate H; injection H as ->; tauto.
  - rewrite !elem_of_cons, !elem_of_nil. split.
    + tauto.
    + intros [H|[H|[H|[H|[H|[H|[H|[H|[]]]]]]]]]; try tauto;
        subst sort; exfalso; by apply Hminus.
Qed.

(** X20. With [page] and [limit] passing their checks, [validateQueryParams]
    accepts a [sort] string exactly when it is one of the four field names,
    alone or with a single leading minus sign. *)
Theorem sort_fields_accepted (page limit : option (list N))
    (sort : list N) :
  validateQueryParams page limit None = Next →
  (validateQueryParams page limit (Some sort) = Next
   ↔ sort ∈ [units "symbol"; units "name"; units "addedAt";
             units "lastUpdated"; units "-symbol"; units "-name";
             units "-addedAt"; units "-lastUpdated"]).
Proof.
  intros Hpass. rewrite (validateQueryParams_sort page limit sort Hpass).
  rewrite <- sort_field_with_minus.
  by case_bool_decide.
Qed.

Lemma sort_fields_accepted_sample :
  validateQueryParams (Some (units "2")) (Some (units "50"))
                      (Some (units "-addedAt")) = Next.
Proof.
  apply (sort_fields_accepted (Some (units "2")) (Some (units "50"))
           (units "-addedAt")).
  - reflexivity.
  - apply list_elem_of_In. vm_compute. tauto.
Defined.

(** *** Stock names *)

Lemma somewhere_suffix (at_start : list N → bool) (s : list N) :
  somewhere at_start s = true →
  ∃ pre suf, s = pre ++ suf ∧ at_start suf = true.
Proof.
  induction s as [|c s IH]; simpl.
  - rewrite orb_false_r. intros H. by exists [], [].
  - intros [H|H]%orb_true_iff.
    + by exists [], (c :: s).
    + destruct (IH H) as (pre & suf & -> & Hsuf).
      by exists (c :: pre), suf.
Qed.

Lemma somewhere_app (at_start : list N → bool) (pre suf : list N) :
  at_start suf = true → somewhere at_start (pre ++ suf) = true.
Proof.
  intros Hsuf. induction pre as [|c pre IH]; simpl.
  - destruct suf; simpl; by rewrite Hsuf.
  - rewrite IH. apply orb_true_r.
Qed.

Lemma literal_ci_split (pattern s rest : list N) :
  literal_ci pattern s = Some rest →
  ∃ m, s = m ++ rest ∧ map fold_case m = pattern.
Proof.
  revert s. induction pattern as [|p pattern IH]; intros s; simpl.
  - intros [= <-]. by exists [].
  - destruct s as [|c s]; [done|]. case_bool_decide as Hc; [|done].
    intros (m & -> & Hm)%IH. exists (c :: m). simpl. by rewrite Hc, Hm.
Qed.

Lemma literal_ci_here (m rest : list N) :
  literal_ci (map fold_case m) (m ++ rest) = Some rest.
Proof.
  induction m as [|c m IH]; [done|]. simpl.
  by rewrite bool_decide_eq_true_2.
Qed.

Lemma fold_case_symbol (c p : N) :
  fold_case c = p → ¬ (97 <= p <= 122)%N → c = p.
Proof.
  unfold fold_case. destruct ((65 <=? c)%N && (c <=? 90)%N) eqn:Hc; [|done].
  apply andb_true_iff in Hc as [H1 H2].
  apply N.leb_le in H1. apply N.leb_le in H2. intros <-. lia.
Qed.

(** A pattern character that is not a letter occurs as such wherever the
    pattern matches. *)
Lemma literal_ci_occurs (p : N) (pattern s rest : list N) :
  literal_ci pattern s = Some rest →
  p ∈ pattern →
  ¬ (97 <= p <= 122)%N →
  p ∈ s.
Proof.
  intros (m & -> & <-)%literal_ci_split Hp Hsym.
  apply list_elem_of_In, in_map_iff in Hp as (c & Hc & Hin).
  apply fold_case_symbol in Hc; [|done]. subst c.
  apply elem_of_app. left. by apply list_elem_of_In.
Qed.

Lemma skip_suffix (class : N → bool) (s : list N) :
  ∃ pre, s = pre ++ skip class s.
Proof.
  induction s as [|c s [pre IH]]; [by exists []|]. simpl.
  destruct (class c).
  - exists (c :: pre). simpl. by rewrite <- IH.
  - by exists [].
Qed.

Lemma skip_head_occurs (class : N → bool) (p : N) (s tl : list N) :
  skip class s = p :: tl → p ∈ s.
Proof.
  intros Hskip. destruct (skip_suffix class s) as [pre Hpre].
  rewrite Hpre, Hskip. apply elem_of_app. right. by left.
Qed.

(** Whatever any of the five patterns matches contains one of the
    characters [<], [:], [=] and [(]. *)
Lemma malicious_needs_symbol (name : list N) :
  maliciousPatterns name = true →
  ∃ p, p ∈ [60; 58; 61; 40]%N ∧ p ∈ name.
Proof.
  unfold maliciousPatterns. rewrite !orb_true_iff.
  assert (Hback : ∀ (p : N) (pre suf : list N), p ∈ suf → p ∈ pre ++ suf)
    by (intros; apply elem_of_app; by right).
  intros [[[[H|H]|H]|H]|H];
    apply somewhere_suffix in H as (pre & suf & -> & H).
  - exists 60%N. split; [by left|]. apply Hback.
    unfold script_tag in H. apply bool_decide_eq_true_1 in H as [rest H].
    apply (literal_ci_occurs 60 _ _ _ H); [by left|lia].
  - exists 58%N. split; [by right; left|]. apply Hback.
    unfold javascript_url in H.
    apply bool_decide_eq_true_1 in H as [rest H].
    apply (literal_ci_occurs 58 _ _ _ H); [|lia].
    apply list_elem_of_In. vm_compute. tauto.
  - exists 61%N. split; [by right; right; left|]. apply Hback.
    unfold event_handler in H.
    destruct (literal_ci (units "on") suf) as [[|c rest]|] eqn:Hon;
      [done| |done].
    apply andb_true_iff in H as [_ H].
    destruct (skip is_white (skip is_word rest)) as [|p tl] eqn:Hskip;
      [done|].
    assert (p = 61%N) as ->.
    { destruct p as [|q]; [done|].
      do 6 (destruct q as [q|q|]; try done). }
    apply literal_ci_split in Hon as (m & -> & _).
    apply elem_of_app. right. right.
    apply skip_head_occurs in Hskip.
    destruct (skip_suffix is_word rest) as [pre' Hpre'].
    rewrite Hpre'. apply elem_of_app. by right.
  - exists 40%N. split; [by right; right; right; left|]. apply Hback.
    unfold eval_call in H. apply bool_decide_eq_true_1 in H as [rest H].
    apply (literal_ci_occurs 40 _ _ _ H); [|lia].
    apply list_elem_of_In. vm_compute. tauto.
  - exists 40%N. split; [by right; right; right; left|]. apply Hback.
    unfold function_head in H.
    destruct (literal_ci (units "function") suf) as [rest|] eqn:Hfn;
      [|done].
    destruct (skip is_white rest) as [|p tl] eqn:Hskip; [done|].
    assert (p = 40%N) as ->.
    { destruct p as [|q]; [done|].
      do 6 (destruct q as [q|q|]; try done). }
    apply literal_ci_split in Hfn as (m & -> & _).
    apply elem_of_app. right. by apply skip_head_occurs in Hskip.
Qed.

(** X21. [validateStockData] lets every plain name through: a name of at
    most 100 code units that contains none of the characters [<], [:],
    [=] and [(] goes on to [next()]. *)
Theorem plain_names_pass (name : list N) :
  (length name <= 100)%nat →
  (∀ p, p ∈ [60; 58; 61; 40]%N → p ∉ name) →
  validateStockData (Str name) = Next.
Proof.
  intros Hlen Hplain. unfold validateStockData.
  replace (100 <? length name)%nat with false
    by (symmetry; apply Nat.ltb_ge; lia).
  destruct (maliciousPatterns name) eqn:Hbad; [|done].
  apply malicious_needs_symbol in Hbad as (p & Hp & Hin).
  by destruct (Hplain p Hp).
Qed.

Lemma plain_names_pass_sample :
  validateStockData (Str (units "Johnson & Johnson, Inc.")) = Next.
Proof.
  apply (plain_names_pass (units "Johnson & Johnson, Inc.")).
  - simpl. lia.
  - intros p Hp Hin.
    apply list_elem_of_In in Hin.
    repeat (apply elem_of_cons in Hp as [->|Hp];
            [vm_compute in Hin; intuition discriminate|]).
    by apply elem_of_nil in Hp.
Defined.

(** X22. [validateStockData] turns away every name of at most 100 code
    units in which [<script] occurs, in whatever mixture of upper and lower
    case, with status 400. *)
Theorem script_names_rejected (pre tag post : list N) :
  map fold_case tag = units "<script" →
  (length (pre ++ tag ++ post) <= 100)%nat →
  validateStockData (Str (pre ++ tag ++ post))
  = NextError "Invalid characters in stock name" 400.
Proof.
  intros Htag Hlen. unfold validateStockData.
  replace (100 <? length (pre ++ tag ++ post))%nat with false
    by (symmetry; apply Nat.ltb_ge; lia).
  assert (Hbad : maliciousPatterns (pre ++ tag ++ post) = true);
    [|by rewrite Hbad].
  unfold maliciousPatterns.
  rewrite (somewhere_app script_tag pre (tag ++ post)); [done|].
  unfold script_tag. apply bool_decide_eq_true_2.
  exists post. rewrite <- Htag. apply literal_ci_here.
Qed.

Lemma script_names_rejected_sample :
  validateStockData (Str (units "Acme <ScRiPt>alert</script>"))
  = NextError "Invalid characters in stock name" 400.
Proof.
  apply (script_names_rejected (units "Acme ") (units "<ScRiPt")
           (units ">alert</script>")).
  - reflexivity.
  - simpl. lia.
Defined.
